(** * go-libp2p-kad-dht, package v2/coord: conversion.go and query.go

    A shallow embedding of the identity conversions (conversion.go) and of
    the pooled query behaviour (query.go), with the properties of the
    coordination adapter stated and proved over it.

    Go panics are modelled as an explicit outcome, interface values as
    tagged unions over their dynamic type, the [waiters] map as a [gmap],
    slices as lists, the mutex [pendingMu] by whether it is held, and the
    one-slot [ready] channel by its capacity and the number of tokens it
    buffers. Method calls run one at a time. The tracing spans and the
    context argument are left out. The pool of go-kademlia and the waiter
    objects are outside this package: the pool is a parameter, and of the
    waiters the model keeps the calls made on them. *)

From Stdlib Require Import Lia.
From stdpp Require Import base option list strings gmap.

Set Default Proof Using "Type".

(** ** Types of the collaborating packages *)

(** [query.QueryID] is a string type. *)
Definition QueryID : Type := string.

(** [peer.ID] is a string type; [kadt.PeerID] is declared as
    [type PeerID peer.ID], so the conversions [kadt.PeerID(x)] and
    [peer.ID(x)] keep the representation. *)
Definition peer_ID : Type := string.
Definition PeerID : Type := peer_ID.

(** A value of the interface [kad.NodeID[key.Key256]] by its dynamic type:
    the nil interface, a [kadt.PeerID], or a value of any other
    implementing type (named by what [%T] prints). *)
Inductive NodeID : Type :=
  | NodeID_nil
  | NodeID_PeerID (p : PeerID)
  | NodeID_other (dyn_type : string).

(** The value a panicking call aborts with. *)
Inductive PanicValue : Type :=
  | InterfaceConversion (dynamic : NodeID)
  | IndexOutOfRange (i : nat)
  | PanicMessage (msg : string).

(** A call either returns or panics. *)
Inductive result (A : Type) : Type :=
  | Ok (a : A)
  | Panic (p : PanicValue).
Arguments Ok {A} a.
Arguments Panic {A} p.

Definition result_bind {A B} (r : result A) (k : A → result B) : result B :=
  match r with
  | Ok a => k a
  | Panic p => Panic p
  end.

(** The types this package only passes through. *)
Class Externals : Type := {
  (** [ma.Multiaddr] *)
  Multiaddr : Type;
  (** [KadKey], that is [key.Key256] *)
  KadKey : Type;
  (** [address.ProtocolID] *)
  ProtocolID : Type;
  (** [kad.Request[KadKey, ma.Multiaddr]] and its method [Target()] *)
  Request : Type;
  Target : Request → KadKey;
  (** [kad.Response[KadKey, ma.Multiaddr]] *)
  Response : Type;
  (** [error] *)
  GoError : Type;
  (** [query.QueryStats] *)
  QueryStats : Type;
}.

Section Conversion.
Context `{Externals}.

(** [peer.AddrInfo] *)
Record AddrInfo : Type := mkAddrInfo {
  ID : peer_ID;
  Addrs : list Multiaddr;
}.

(** A non-nil value of the interface [kad.NodeInfo[key.Key256,
    ma.Multiaddr]], by what its methods [ID()] and [Addresses()]
    return. *)
Record NodeInfo : Type := mkNodeInfo {
  NodeInfo_ID : NodeID;
  Addresses : list Multiaddr;
}.

(** The type assertion [id.(kadt.PeerID)]. *)
Definition assert_PeerID (id : NodeID) : result PeerID :=
  match id with
  | NodeID_PeerID p => Ok p
  | _ => Panic (InterfaceConversion id)
  end.

Definition NodeInfoToAddrInfo (info : NodeInfo) : result AddrInfo :=
  result_bind (assert_PeerID (NodeInfo_ID info)) (λ peerID,
  Ok {| ID := peerID; Addrs := Addresses info |}).

Definition NodeIDToAddrInfo (id : NodeID) : result AddrInfo :=
  result_bind (assert_PeerID id) (λ peerID,
  Ok {| ID := peerID; Addrs := [] |}).

(** The zero value of [peer.AddrInfo], which [make] fills with. *)
Definition AddrInfo_zero : AddrInfo := {| ID := EmptyString; Addrs := [] |}.

(** Reading [s[i]] and writing [s[i] = x] on a slice: both panic when
    [i] is out of range. *)
Definition slice_get {A} (s : list A) (i : nat) : result A :=
  match s !! i with
  | Some x => Ok x
  | None => Panic (IndexOutOfRange i)
  end.

Definition slice_set {A} (s : list A) (i : nat) (x : A) : result (list A) :=
  if decide (i < length s) then Ok (<[i := x]> s)
  else Panic (IndexOutOfRange i).

(** A loop [for i := range s] whose body may panic, threading the local
    state [acc]. *)
Definition for_range {A} (n : nat) (body : A → nat → result A) (acc : A)
    : result A :=
  foldl (λ r i, result_bind r (λ a, body a i)) (Ok acc) (seq 0 n).

(** Applying [f] to the elements from left to right, up to the first
    one on which it panics. *)
Fixpoint result_map {A B} (f : A → result B) (s : list A)
    : result (list B) :=
  match s with
  | [] => Ok []
  | x :: s' =>
      result_bind (f x) (λ y,
      result_bind (result_map f s') (λ ys, Ok (y :: ys)))
  end.

Definition SliceOfNodeInfoToSliceOfAddrInfo (infos : list NodeInfo)
    : result (list AddrInfo) :=
  let peers := replicate (length infos) AddrInfo_zero in
  for_range (length infos) (λ peers i,
    result_bind (slice_get infos i) (λ info,
    result_bind (assert_PeerID (NodeInfo_ID info)) (λ peerID,
    slice_set peers i {| ID := peerID; Addrs := Addresses info |})))
    peers.

Definition SliceOfPeerIDToSliceOfNodeID (peers : list peer_ID)
    : result (list NodeID) :=
  let nodes := replicate (length peers) NodeID_nil in
  for_range (length peers) (λ nodes i,
    result_bind (slice_get peers i) (λ p,
    slice_set nodes i (NodeID_PeerID p)))
    nodes.

Definition NodeIDToPeerID (id : NodeID) : result peer_ID :=
  assert_PeerID id.

End Conversion.

(** ** Events and pool states *)

(** A registered notification target: a reference to an object behind the
    interface [NotifyCloser[BehaviourEvent]]. Two registrations may hold
    the same reference. *)
Definition Waiter : Type := nat.

(** The [Notify] field of [EventOutboundGetCloserNodes]; the behaviour
    stores itself there. *)
Inductive NotifyTarget : Type :=
  | ThisBehaviour.

Section Events.
Context `{Externals}.

(** [query.PoolEvent], the events of go-kademlia's pool that this file
    constructs. *)
Inductive PoolEvent : Type :=
  | EventPoolAddQuery (QueryID : QueryID) (Target : KadKey)
      (ProtocolID : ProtocolID) (Message : Request)
      (KnownClosestNodes : list NodeID)
  | EventPoolStopQuery (QueryID : QueryID)
  | EventPoolMessageResponse (NodeID : NodeID) (QueryID : QueryID)
      (Response : Response)
  | EventPoolMessageFailure (NodeID : NodeID) (QueryID : QueryID)
      (Error : GoError)
  | EventPoolPoll.

(** [query.PoolState] by dynamic type: the six states [advancePool]
    names, and any other value of the interface (nil included). *)
Inductive PoolState : Type :=
  | StatePoolQueryMessage (QueryID : QueryID) (NodeID : NodeID)
      (ProtocolID : ProtocolID) (Message : Request)
  | StatePoolWaitingAtCapacity
  | StatePoolWaitingWithCapacity
  | StatePoolQueryFinished (QueryID : QueryID) (Stats : QueryStats)
  | StatePoolQueryTimeout (QueryID : QueryID)
  | StatePoolIdle
  | StatePool_other (dyn_type : string).

(** [BehaviourEvent] by dynamic type: nil, the four events [Notify]
    accepts, the four events this file produces, and any other value of
    the interface. A nil [Notify] field of [EventStartQuery] is
    [None]. *)
Inductive BehaviourEvent : Type :=
  | Event_nil
  | EventStartQuery (QueryID : QueryID) (Target : KadKey)
      (ProtocolID : ProtocolID) (Message : Request)
      (KnownClosestNodes : list peer_ID) (Notify : option Waiter)
  | EventStopQuery (QueryID : QueryID)
  | EventGetCloserNodesSuccess (QueryID : QueryID) (To : AddrInfo)
      (Target : KadKey) (CloserNodes : list AddrInfo)
  | EventGetCloserNodesFailure (QueryID : QueryID) (To : AddrInfo)
      (Target : KadKey) (Err : GoError)
  | EventOutboundGetCloserNodes (QueryID : QueryID) (To : AddrInfo)
      (Target : KadKey) (Notify : NotifyTarget)
  | EventAddAddrInfo (NodeInfo : AddrInfo)
  | EventQueryProgressed (QueryID : QueryID) (NodeID : peer_ID)
      (Response : Response)
  | EventQueryFinished (QueryID : QueryID) (Stats : QueryStats)
  | Event_other (dyn_type : string).

(** What [%T] prints for an event. *)
Definition type_name (ev : BehaviourEvent) : string :=
  match ev with
  | Event_nil => "<nil>"
  | EventStartQuery _ _ _ _ _ _ => "*coord.EventStartQuery"
  | EventStopQuery _ => "*coord.EventStopQuery"
  | EventGetCloserNodesSuccess _ _ _ _ => "*coord.EventGetCloserNodesSuccess"
  | EventGetCloserNodesFailure _ _ _ _ => "*coord.EventGetCloserNodesFailure"
  | EventOutboundGetCloserNodes _ _ _ _ => "*coord.EventOutboundGetCloserNodes"
  | EventAddAddrInfo _ => "*coord.EventAddAddrInfo"
  | EventQueryProgressed _ _ _ => "*coord.EventQueryProgressed"
  | EventQueryFinished _ _ => "*coord.EventQueryFinished"
  | Event_other t => t
  end.

(** A method call made on a waiter object. *)
Inductive WaiterCall : Type :=
  | CallNotify (w : Waiter) (ev : BehaviourEvent)
  | CallClose (w : Waiter).

End Events.

(** The collaborators [query.go] calls into: go-kademlia's
    [query.Pool] with its method [Advance], which updates the pool and
    returns its next state, and the helper [CloserNodesResponse] of this
    package. *)
Class Collaborators `{Externals} : Type := {
  Pool : Type;
  Advance : Pool → PoolEvent → Pool * PoolState;
  CloserNodesResponse : KadKey → list AddrInfo → Response;
}.

(** A buffered channel of [struct{}]: its capacity and how many tokens it
    holds. *)
Record Chan : Type := mkChan {
  chan_cap : nat;
  chan_len : nat;
}.

Definition make_chan (cap : nat) : Chan := {| chan_cap := cap; chan_len := 0 |}.

(** [select { case ch <- struct{}{}: default: }]: the send happens when
    the buffer has room and is dropped otherwise. *)
Definition select_send_default (ch : Chan) : Chan :=
  if decide (chan_len ch < chan_cap ch)
  then {| chan_cap := chan_cap ch; chan_len := S (chan_len ch) |}
  else ch.

(** [<-ch] by a receiver that found the channel ready. *)
Definition chan_recv (ch : Chan) : Chan :=
  {| chan_cap := chan_cap ch; chan_len := pred (chan_len ch) |}.

(** How a method call on the behaviour ends: it returns, it panics, or it
    blocks for ever on a mutex that is held. *)
Inductive Outcome (A : Type) : Type :=
  | Returned (a : A)
  | Panicked (p : PanicValue)
  | Blocked.
Arguments Returned {A} a.
Arguments Panicked {A} p.
Arguments Blocked {A}.

(** ** query.go *)

Section Behaviour.
Context `{Collaborators}.

(** The struct [PooledQueryBehaviour] (without [logger] and [tracer]).
    [pendingMu] is [true] while the mutex is held. [delivered] is not a
    field of the struct: it records, in order, the calls the behaviour
    has made on waiter objects, which live outside it. *)
Record PooledQueryBehaviour : Type := mkBehaviour {
  pool : Pool;
  waiters : gmap QueryID Waiter;
  pendingMu : bool;
  pending : list BehaviourEvent;
  ready : Chan;
  delivered : list WaiterCall;
}.

Definition NewPooledQueryBehaviour (pool : Pool) : PooledQueryBehaviour :=
  {| pool := pool;
     waiters := ∅;
     pendingMu := false;
     pending := [];
     ready := make_chan 1;
     delivered := [] |}.

(** Code of a method of [*PooledQueryBehaviour]: it updates the
    receiver in place; the updates made before a panic stay. *)
Definition M (A : Type) : Type :=
  PooledQueryBehaviour → Outcome A * PooledQueryBehaviour.

#[global] Instance M_ret : MRet M := λ A a p, (Returned a, p).

#[global] Instance M_bind : MBind M := λ A B k m p,
  match m p with
  | (Returned a, p') => k a p'
  | (Panicked v, p') => (Panicked v, p')
  | (Blocked, p') => (Blocked, p')
  end.

Definition panic {A} (v : PanicValue) : M A := λ p, (Panicked v, p).

Definition gets {A} (f : PooledQueryBehaviour → A) : M A :=
  λ p, (Returned (f p), p).

Definition modify (f : PooledQueryBehaviour → PooledQueryBehaviour)
    : M unit :=
  λ p, (Returned (), f p).

(** A call of a function that may panic. *)
Definition lift {A} (r : result A) : M A :=
  match r with
  | Ok a => mret a
  | Panic v => panic v
  end.

(** [body] with [deferred] registered by [defer]: it runs when [body]
    returns and when it panics. *)
Definition with_defer {A} (deferred : PooledQueryBehaviour →
    PooledQueryBehaviour) (body : M A) : M A := λ p,
  match body p with
  | (Returned a, p') => (Returned a, deferred p')
  | (Panicked v, p') => (Panicked v, deferred p')
  | (Blocked, p') => (Blocked, p')
  end.

Definition set_pool (x : Pool) (p : PooledQueryBehaviour) :=
  {| pool := x; waiters := waiters p; pendingMu := pendingMu p;
     pending := pending p; ready := ready p; delivered := delivered p |}.
Definition set_waiters (x : gmap QueryID Waiter) (p : PooledQueryBehaviour) :=
  {| pool := pool p; waiters := x; pendingMu := pendingMu p;
     pending := pending p; ready := ready p; delivered := delivered p |}.
Definition set_pendingMu (x : bool) (p : PooledQueryBehaviour) :=
  {| pool := pool p; waiters := waiters p; pendingMu := x;
     pending := pending p; ready := ready p; delivered := delivered p |}.
Definition set_pending (x : list BehaviourEvent) (p : PooledQueryBehaviour) :=
  {| pool := pool p; waiters := waiters p; pendingMu := pendingMu p;
     pending := x; ready := ready p; delivered := delivered p |}.
Definition set_ready (x : Chan) (p : PooledQueryBehaviour) :=
  {| pool := pool p; waiters := waiters p; pendingMu := pendingMu p;
     pending := pending p; ready := x; delivered := delivered p |}.
Definition set_delivered (x : list WaiterCall) (p : PooledQueryBehaviour) :=
  {| pool := pool p; waiters := waiters p; pendingMu := pendingMu p;
     pending := pending p; ready := ready p; delivered := x |}.

(** [p.pendingMu.Lock()] *)
Definition Lock : M unit := λ p,
  if pendingMu p then (Blocked, p) else (Returned (), set_pendingMu true p).

(** [p.pendingMu.Unlock()] *)
Definition Unlock (p : PooledQueryBehaviour) : PooledQueryBehaviour :=
  set_pendingMu false p.

(** [p.pending = append(p.pending, ev)] *)
Definition append_pending (ev : BehaviourEvent) : M unit :=
  modify (λ p, set_pending (pending p ++ [ev]) p).

(** [waiter.Notify(ctx, ev)] and [waiter.Close()] *)
Definition waiter_Notify (w : Waiter) (ev : BehaviourEvent) : M unit :=
  modify (λ p, set_delivered (delivered p ++ [CallNotify w ev]) p).
Definition waiter_Close (w : Waiter) : M unit :=
  modify (λ p, set_delivered (delivered p ++ [CallClose w]) p).

(** The non-blocking send on [p.ready]. *)
Definition signal_ready : M unit :=
  modify (λ p, set_ready (select_send_default (ready p)) p).

(** [p.pool.Advance(ctx, ev)] *)
Definition pool_Advance (ev : PoolEvent) : M PoolState := λ p,
  let '(pool', pstate) := Advance (pool p) ev in
  (Returned pstate, set_pool pool' p).

Definition advancePool (ev : PoolEvent) : M (BehaviourEvent * bool) :=
  pstate ← pool_Advance ev;
  match pstate with
  | StatePoolQueryMessage QueryID NodeID _ Message =>
      to ← lift (NodeIDToAddrInfo NodeID);
      mret (EventOutboundGetCloserNodes QueryID to (Target Message)
              ThisBehaviour, true)
  | StatePoolWaitingAtCapacity => mret (Event_nil, false)
  | StatePoolWaitingWithCapacity => mret (Event_nil, false)
  | StatePoolQueryFinished QueryID Stats =>
      ws ← gets waiters;
      match ws !! QueryID with
      | Some waiter =>
          waiter_Notify waiter (EventQueryFinished QueryID Stats);;
          waiter_Close waiter
      | None => mret ()
      end;;
      mret (Event_nil, false)
  | StatePoolQueryTimeout _ => mret (Event_nil, false)
  | StatePoolIdle => mret (Event_nil, false)
  | StatePool_other t =>
      panic (PanicMessage ("unexpected pool state: " +:+ t))
  end.

Definition Notify (ev : BehaviourEvent) : M unit :=
  Lock;;
  with_defer Unlock (
    cmd ← match ev with
      | EventStartQuery QueryID Target ProtocolID Message
          KnownClosestNodes Notify =>
          nodes ← lift (SliceOfPeerIDToSliceOfNodeID KnownClosestNodes);
          match Notify with
          | Some w => modify (λ p, set_waiters (<[QueryID := w]> (waiters p)) p)
          | None => mret ()
          end;;
          mret (EventPoolAddQuery QueryID Target ProtocolID Message nodes)
      | EventStopQuery QueryID =>
          mret (EventPoolStopQuery QueryID)
      | EventGetCloserNodesSuccess QueryID To Target CloserNodes =>
          foldr (λ info rest, append_pending (EventAddAddrInfo info);; rest)
            (mret ()) CloserNodes;;
          ws ← gets waiters;
          match ws !! QueryID with
          | Some waiter =>
              waiter_Notify waiter (EventQueryProgressed QueryID (ID To)
                (CloserNodesResponse Target CloserNodes))
          | None => mret ()
          end;;
          mret (EventPoolMessageResponse (NodeID_PeerID (ID To)) QueryID
                  (CloserNodesResponse Target CloserNodes))
      | EventGetCloserNodesFailure QueryID To _ Err =>
          mret (EventPoolMessageFailure (NodeID_PeerID (ID To)) QueryID Err)
      | _ => panic (PanicMessage ("unexpected dht event: " +:+ type_name ev))
      end;
    '(ev', ok) ← advancePool cmd;
    (if ok : bool then append_pending ev' else mret ());;
    q ← gets pending;
    if decide (0 < length q) then signal_ready else mret ()).

Definition Ready (p : PooledQueryBehaviour) : Chan := ready p.

(** One round of the loop [for { ... }] of [Perform]: [Some] is a
    [return], [None] goes round again. *)
Definition Perform_round : M (option (BehaviourEvent * bool)) :=
  q ← gets pending;
  match q with
  | ev :: rest =>
      modify (set_pending rest);;
      (if decide (0 < length rest) then signal_ready else mret ());;
      mret (Some (ev, true))
  | [] =>
      '(ev, ok) ← advancePool EventPoolPoll;
      if ok : bool then mret (Some (ev, true))
      else
        q' ← gets pending;
        if decide (length q' = 0) then mret (Some (Event_nil, false))
        else mret None
  end.

(** The loop, for at most [fuel] rounds; [None] when they did not
    reach a [return]. *)
Fixpoint Perform_loop (fuel : nat) : M (option (BehaviourEvent * bool)) :=
  match fuel with
  | 0 => mret None
  | S fuel' =>
      r ← Perform_round;
      match r with
      | Some v => mret (Some v)
      | None => Perform_loop fuel'
      end
  end.

Definition Perform (fuel : nat) : M (option (BehaviourEvent * bool)) :=
  Lock;;
  with_defer Unlock (Perform_loop fuel).

End Behaviour.

(** ** Sequences of calls *)

Section Calls.
Context `{Collaborators}.

(** What the surrounding event loop does with a behaviour: it calls
    [Notify], it calls [Perform], or it receives from the channel
    [Ready()] returned, which it found ready. *)
Inductive Call : Type :=
  | DoNotify (ev : BehaviourEvent)
  | DoPerform (fuel : nat)
  | DoReceiveReady.

(** The behaviour after one call, however the call ended. *)
Definition after (c : Call) (p : PooledQueryBehaviour)
    : PooledQueryBehaviour :=
  match c with
  | DoNotify ev => (Notify ev p).2
  | DoPerform fuel => (Perform fuel p).2
  | DoReceiveReady => set_ready (chan_recv (Ready p)) p
  end.

Definition after_all (cs : list Call) (p : PooledQueryBehaviour)
    : PooledQueryBehaviour :=
  foldl (λ p c, after c p) p cs.

(** [n] calls of [Perform] in a row, with the events they returned with
    [ok = true]. A call that does not return such an event ends the
    run. *)
Fixpoint drain (n : nat) (p : PooledQueryBehaviour)
    : list BehaviourEvent * PooledQueryBehaviour :=
  match n with
  | 0 => ([], p)
  | S n' =>
      match Perform 1 p with
      | (Returned (Some (ev, true)), p') =>
          let '(evs, p'') := drain n' p' in (ev :: evs, p'')
      | (_, p') => ([], p')
      end
  end.

(** The query a notification is about. *)
Definition notification_query (ev : BehaviourEvent) : option QueryID :=
  match ev with
  | EventQueryProgressed q _ _ => Some q
  | EventQueryFinished q _ => Some q
  | _ => None
  end.

(** The notifications delivered to the waiter [w], in order. *)
Definition notifications_of (w : Waiter) (calls : list WaiterCall)
    : list BehaviourEvent :=
  omap (λ c, match c with
             | CallNotify w' ev => if decide (w' = w) then Some ev else None
             | CallClose _ => None
             end) calls.

(** The order the specification gives the notifications of one waiter:
    progress events, then at most one finish event, and nothing after
    it. *)
Fixpoint progress_then_finish (evs : list BehaviourEvent) : bool :=
  match evs with
  | [] => true
  | EventQueryProgressed _ _ _ :: evs' => progress_then_finish evs'
  | EventQueryFinished _ _ :: evs' => bool_decide (evs' = [])
  | _ :: _ => false
  end.

(** ** The events and states the code tells apart *)

(** The four events [Notify] accepts. *)
Definition is_inbound (ev : BehaviourEvent) : bool :=
  match ev with
  | EventStartQuery _ _ _ _ _ _ | EventStopQuery _
  | EventGetCloserNodesSuccess _ _ _ _
  | EventGetCloserNodesFailure _ _ _ _ => true
  | _ => false
  end.

(** The six pool states [advancePool] handles. *)
Definition is_known_state (st : PoolState) : bool :=
  match st with
  | StatePool_other _ => false
  | _ => true
  end.

(** The pool states for which [advancePool] has no outbound event. *)
Definition nothing_to_do (st : PoolState) : bool :=
  match st with
  | StatePoolWaitingAtCapacity | StatePoolWaitingWithCapacity
  | StatePoolQueryFinished _ _ | StatePoolQueryTimeout _
  | StatePoolIdle => true
  | _ => false
  end.

(** The identities whose dynamic type is [kadt.PeerID]. *)
Definition is_PeerID (id : NodeID) : bool :=
  match id with
  | NodeID_PeerID _ => true
  | _ => false
  end.

(** ** The translation table of the specification *)

(** Column "Pool event". *)
Definition table_pool_event (ev : BehaviourEvent) : option PoolEvent :=
  match ev with
  | EventStartQuery q target proto msg known _ =>
      Some (EventPoolAddQuery q target proto msg (NodeID_PeerID <$> known))
  | EventStopQuery q => Some (EventPoolStopQuery q)
  | EventGetCloserNodesSuccess q to target closer =>
      Some (EventPoolMessageResponse (NodeID_PeerID (ID to)) q
              (CloserNodesResponse target closer))
  | EventGetCloserNodesFailure q to _ err =>
      Some (EventPoolMessageFailure (NodeID_PeerID (ID to)) q err)
  | _ => None
  end.

(** Column "Side effect", in three parts: the waiter registry, the
    events queued, and the waiter notified. *)
Definition table_registry (ev : BehaviourEvent)
    (ws : gmap QueryID Waiter) : gmap QueryID Waiter :=
  match ev with
  | EventStartQuery q _ _ _ _ (Some w) => <[q := w]> ws
  | _ => ws
  end.

Definition table_queued (ev : BehaviourEvent) : list BehaviourEvent :=
  match ev with
  | EventGetCloserNodesSuccess _ _ _ closer => EventAddAddrInfo <$> closer
  | _ => []
  end.

Definition table_notified (ev : BehaviourEvent)
    (ws : gmap QueryID Waiter) : list WaiterCall :=
  match ev with
  | EventGetCloserNodesSuccess q to target closer =>
      match ws !! q with
      | Some w => [CallNotify w (EventQueryProgressed q (ID to)
                                   (CloserNodesResponse target closer))]
      | None => []
      end
  | _ => []
  end.

(** ** Calls by the state the pool answers with *)

(** What a pool state makes of a call of [advancePool]: how the call
    ends, and which calls it makes on waiters. *)
Definition state_outcome (st : PoolState) : Outcome (BehaviourEvent * bool) :=
  match st with
  | StatePoolQueryMessage q (NodeID_PeerID n) _ msg =>
      Returned (EventOutboundGetCloserNodes q {| ID := n; Addrs := [] |}
                  (Target msg) ThisBehaviour, true)
  | StatePoolQueryMessage _ id _ _ => Panicked (InterfaceConversion id)
  | StatePool_other t =>
      Panicked (PanicMessage ("unexpected pool state: " +:+ t))
  | _ => Returned (Event_nil, false)
  end.

Definition state_calls (st : PoolState) (ws : gmap QueryID Waiter)
    : list WaiterCall :=
  match st with
  | StatePoolQueryFinished q stats =>
      match ws !! q with
      | Some w => [CallNotify w (EventQueryFinished q stats); CallClose w]
      | None => []
      end
  | _ => []
  end.

(** The outbound event a call of [advancePool] hands back, if any. *)
Definition outcome_events {A} (o : Outcome (A * bool)) : list A :=
  match o with
  | Returned (ev, true) => [ev]
  | _ => []
  end.

(** A call that returns nothing ends the way the last call it made
    ended. *)
Definition unit_outcome {A} (o : Outcome A) : Outcome unit :=
  match o with
  | Returned _ => Returned ()
  | Panicked v => Panicked v
  | Blocked => Blocked
  end.

(** A call of [advancePool] in which the pool returns [st]: the pool has
    moved on to [pool'] and the waiter of a finished query has been
    called. *)
Definition advancePool_by_state (pool' : Pool) (st : PoolState)
    (p : PooledQueryBehaviour)
    : Outcome (BehaviourEvent * bool) * PooledQueryBehaviour :=
  (state_outcome st,
   set_delivered (delivered p ++ state_calls st (waiters p))
     (set_pool pool' p)).

(** A call of [Notify] with an event the table translates to [cmd], to
    which the pool answers with [st]: the side effects of the table, then
    those of the pool state, then the signal. A call that panics does not
    signal. *)
Definition Notify_by_table (ev : BehaviourEvent) (pool' : Pool)
    (st : PoolState) (p : PooledQueryBehaviour)
    : Outcome unit * PooledQueryBehaviour :=
  let ws := table_registry ev (waiters p) in
  let o := state_outcome st in
  let q := pending p ++ table_queued ev ++ outcome_events o in
  (unit_outcome o,
   {| pool := pool';
      waiters := ws;
      pendingMu := false;
      pending := q;
      ready := match o with
               | Returned _ =>
                   if decide (0 < length q)
                   then select_send_default (ready p) else ready p
               | _ => ready p
               end;
      delivered := delivered p ++ table_notified ev (waiters p)
                     ++ state_calls st ws |}).

(** A call of [Perform] that finds the queue empty and to whose poll the
    pool answers with [st]. *)
Definition Perform_by_state (pool' : Pool) (st : PoolState)
    (p : PooledQueryBehaviour)
    : Outcome (option (BehaviourEvent * bool)) * PooledQueryBehaviour :=
  (match state_outcome st with
   | Returned r => Returned (Some r)
   | Panicked v => Panicked v
   | Blocked => Blocked
   end,
   set_delivered (delivered p ++ state_calls st (waiters p))
     (set_pool pool' p)).

(** The events one call of [Notify] appends to the queue: those of the
    table, then the outbound event the pool's answer gives rise to. *)
Definition queued_by_one (ev : BehaviourEvent) (p : PooledQueryBehaviour)
    : list BehaviourEvent :=
  match table_pool_event ev with
  | Some cmd =>
      table_queued ev
        ++ outcome_events (state_outcome (Advance (pool p) cmd).2)
  | None => []
  end.

(** The events calls of [Notify] in a row append, in the order in which
    they are produced. *)
Fixpoint queued_by (evs : list BehaviourEvent) (p : PooledQueryBehaviour)
    : list BehaviourEvent :=
  match evs with
  | [] => []
  | ev :: evs' => queued_by_one ev p ++ queued_by evs' (Notify ev p).2
  end.

(** The outbound events a call produces: those a call of [Notify]
    appends, and the one a call of [Perform] gets from polling the pool
    when it finds the queue empty. *)
Definition produced_by (c : Call) (p : PooledQueryBehaviour)
    : list BehaviourEvent :=
  match c with
  | DoNotify ev => queued_by_one ev p
  | DoPerform (S _) =>
      match pending p with
      | [] => outcome_events (state_outcome (Advance (pool p) EventPoolPoll).2)
      | _ :: _ => []
      end
  | _ => []
  end.

(** The event a call hands to the caller of [Perform]. *)
Definition returned_by (c : Call) (p : PooledQueryBehaviour)
    : list BehaviourEvent :=
  match c with
  | DoPerform fuel =>
      match (Perform fuel p).1 with
      | Returned (Some (ev, true)) => [ev]
      | _ => []
      end
  | _ => []
  end.

(** The events produced, and the events returned, over a sequence of
    calls. *)
Fixpoint produced (cs : list Call) (p : PooledQueryBehaviour)
    : list BehaviourEvent :=
  match cs with
  | [] => []
  | c :: cs' => produced_by c p ++ produced cs' (after c p)
  end.

Fixpoint returned (cs : list Call) (p : PooledQueryBehaviour)
    : list BehaviourEvent :=
  match cs with
  | [] => []
  | c :: cs' => returned_by c p ++ returned cs' (after c p)
  end.

(** Whether a call starts the query [q] with a notification target. *)
Definition supplies_target (q : QueryID) (c : Call) : bool :=
  match c with
  | DoNotify (EventStartQuery q' _ _ _ _ (Some _)) => bool_decide (q' = q)
  | _ => false
  end.

(** Whether a call on a waiter is a notification about the query [q]. *)
Definition notifies_about (q : QueryID) (c : WaiterCall) : bool :=
  match c with
  | CallNotify _ ev => bool_decide (notification_query ev = Some q)
  | CallClose _ => false
  end.

End Calls.

(** ** A concrete setting

    Plain data for the types passed through, and a pool that plays a
    script: each call of [Advance] records the event it was given and
    returns the next state of the script, [StatePoolIdle] once the script
    is over. *)
Module Scripted.

#[export] Instance externals : Externals := {|
  Multiaddr := string;
  KadKey := string;
  ProtocolID := string;
  Request := string;
  Target := λ msg, msg;
  Response := string * list (peer_ID * list string);
  GoError := string;
  QueryStats := nat;
|}.

Record ScriptedPool : Type := mkScripted {
  script : list PoolState;
  received : list PoolEvent;
}.

Definition ScriptedPool_Advance (pl : ScriptedPool) (ev : PoolEvent)
    : ScriptedPool * PoolState :=
  match script pl with
  | [] => ({| script := []; received := received pl ++ [ev] |}, StatePoolIdle)
  | st :: rest =>
      ({| script := rest; received := received pl ++ [ev] |}, st)
  end.

#[export] Instance collaborators : Collaborators := {|
  Pool := ScriptedPool;
  Advance := ScriptedPool_Advance;
  CloserNodesResponse := λ target closer,
    (target, (λ a, (ID a, Addrs a)) <$> closer);
|}.

Definition scripted (states : list PoolState) : ScriptedPool :=
  {| script := states; received := [] |}.

Definition playing (states : list PoolState) : PooledQueryBehaviour :=
  NewPooledQueryBehaviour (scripted states).

(** A lookup [Q1] for the key [T], seeded with the nodes [N1] and [N2],
    with the waiter [7] or without one; the answers of [N1]; and the
    states of a pool that serves it. *)
Definition start_Q1 (target : option Waiter) : BehaviourEvent :=
  EventStartQuery "Q1" "T" "/ipfs/kad/1.0.0" "T" ["N1"; "N2"] target.

Definition stop_Q1 : BehaviourEvent := EventStopQuery "Q1".

Definition success_N1 : BehaviourEvent :=
  EventGetCloserNodesSuccess "Q1" {| ID := "N1"; Addrs := [] |} "T"
    [{| ID := "N3"; Addrs := ["/ip4/10.0.0.3/tcp/4001"] |}].

Definition failure_N1 : BehaviourEvent :=
  EventGetCloserNodesFailure "Q1" {| ID := "N1"; Addrs := [] |} "T"
    "dial backoff".

Definition message_to (n : PeerID) : PoolState :=
  StatePoolQueryMessage "Q1" (NodeID_PeerID n) "/ipfs/kad/1.0.0" "T".

Definition outbound_to (n : PeerID) : BehaviourEvent :=
  EventOutboundGetCloserNodes "Q1" {| ID := n; Addrs := [] |} "T"
    ThisBehaviour.

Definition progressed_N1 : BehaviourEvent :=
  EventQueryProgressed "Q1" "N1"
    ("T", [("N3", ["/ip4/10.0.0.3/tcp/4001"])]).

Definition finished_Q1 : BehaviourEvent := EventQueryFinished "Q1" 2.

(** The pool sends a request to [N1], waits for the answer, and then
    reports the query finished. *)
Definition one_round : list PoolState :=
  [message_to "N1"; StatePoolWaitingWithCapacity;
   StatePoolQueryFinished "Q1" 2].

Definition add_N3 : BehaviourEvent :=
  EventAddAddrInfo {| ID := "N3"; Addrs := ["/ip4/10.0.0.3/tcp/4001"] |}.

(** The pool asks for a request to a node whose identity is of a type
    other than [kadt.PeerID]. *)
Definition foreign_node : NodeID := NodeID_other "kadtest.ID".

Definition message_to_foreign_node : PoolState :=
  StatePoolQueryMessage "Q1" foreign_node "/ipfs/kad/1.0.0" "T".

End Scripted.

(** ** What a run of calls shows from outside *)

Section Observations.
Context `{Collaborators}.

(** The two kinds of events the behaviour hands to its driver: a node to
    add to the address book, and a request addressed to a peer without
    addresses, to be answered to the behaviour itself. *)
Definition is_emitted (ev : BehaviourEvent) : bool :=
  match ev with
  | EventAddAddrInfo _ => true
  | EventOutboundGetCloserNodes _ to _ ThisBehaviour =>
      bool_decide (Addrs to = [])
  | _ => false
  end.

(** Calls on waiters that come in blocks: a progress notification, or a
    finish notification with [Close] on the same waiter right after it. *)
Fixpoint in_blocks (calls : list WaiterCall) : bool :=
  match calls with
  | [] => true
  | CallNotify _ (EventQueryProgressed _ _ _) :: rest => in_blocks rest
  | CallNotify w (EventQueryFinished _ _) :: CallClose w' :: rest =>
      bool_decide (w = w') && in_blocks rest
  | _ => false
  end.

(** Whether a call starts the query [q] with the waiter [w] as its
    notification target. *)
Definition supplies (q : QueryID) (w : Waiter) (c : Call) : bool :=
  match c with
  | DoNotify (EventStartQuery q' _ _ _ _ (Some w')) =>
      bool_decide (q' = q) && bool_decide (w' = w)
  | _ => false
  end.

(** The registrations a run of calls asks for: each start of a query with
    a notification target writes its entry, over an older one if there is
    one. *)
Definition registrations (cs : list Call) : gmap QueryID Waiter :=
  foldl (λ ws c,
           match c with
           | DoNotify (EventStartQuery q _ _ _ _ (Some w)) => <[q := w]> ws
           | _ => ws
           end) ∅ cs.

(** The pool events a call feeds to the pool: the translation of an
    accepted event, a poll for a call of [Perform] that finds the queue
    empty, and nothing otherwise. *)
Definition fed_by (c : Call) (p : PooledQueryBehaviour) : list PoolEvent :=
  match c with
  | DoNotify ev =>
      match table_pool_event ev with
      | Some cmd => [cmd]
      | None => []
      end
  | DoPerform (S _) =>
      match pending p with
      | [] => [EventPoolPoll]
      | _ :: _ => []
      end
  | _ => []
  end.

Fixpoint fed (cs : list Call) (p : PooledQueryBehaviour) : list PoolEvent :=
  match cs with
  | [] => []
  | c :: cs' => fed_by c p ++ fed cs' (after c p)
  end.

(** The pool after it has been advanced with the events [evs] in turn. *)
Definition advanced_with (evs : list PoolEvent) (pl : Pool) : Pool :=
  foldl (λ pl ev, (Advance pl ev).1) pl evs.


(** Every registration in [p] and every call made on a waiter goes back to
    a call among [cs] that supplied that waiter: for the query of the
    registration, or of the notification. *)
Definition called_as_supplied (cs : list Call) (p : PooledQueryBehaviour)
    : Prop :=
  (∀ q w, waiters p !! q = Some w →
     Exists (λ c, supplies q w c = true) cs) ∧
  (∀ w ev, CallNotify w ev ∈ delivered p →
     ∃ q, notification_query ev = Some q ∧
       Exists (λ c, supplies q w c = true) cs) ∧
  (∀ w, CallClose w ∈ delivered p →
     ∃ q, Exists (λ c, supplies q w c = true) cs).

End Observations.

(** * Properties *)

(** ** conversion.go *)

Section ConversionFacts.
Context `{Externals}.

Lemma result_map_snoc {A B} (f : A → result B) (s : list A) (x : A) :
  result_map f (s ++ [x]) =
  result_bind (result_map f s) (λ ys,
  result_bind (f x) (λ y, Ok (ys ++ [y]))).
Proof.
  induction s as [|a s IH]; simpl.
  - by destruct (f x).
  - destruct (f a) as [b|]; simpl; [|done].
    rewrite IH. destruct (result_map f s) as [ys|]; simpl; [|done].
    by destruct (f x).
Qed.

Lemma result_map_length {A B} (f : A → result B) (s : list A) ys :
  result_map f s = Ok ys → length ys = length s.
Proof.
  revert ys. induction s as [|a s IH]; simpl; intros ys.
  - by intros [= <-].
  - destruct (f a) as [b|]; simpl; [|done].
    destruct (result_map f s) as [ys'|]; simpl; [|done].
    intros [= <-]. simpl. f_equal. by apply IH.
Qed.

Lemma result_map_Ok {A B} (g : A → B) (s : list A) :
  result_map (λ x, Ok (g x)) s = Ok (g <$> s).
Proof. induction s as [|a s IH]; simpl; [done|]. by rewrite IH. Qed.

Lemma slice_set_middle {A} (ys : list A) (x z : A) (m : nat) :
  slice_set (ys ++ replicate (S m) z) (length ys) x =
  Ok ((ys ++ [x]) ++ replicate m z).
Proof.
  unfold slice_set. rewrite length_app, length_replicate.
  destruct (decide _) as [_|Hge]; [|lia].
  f_equal. rewrite insert_app_r_alt by lia.
  replace (length ys - length ys) with 0 by lia.
  simpl. by rewrite <-app_assoc.
Qed.

(** The loops of conversion.go: a slice made with [make] and filled
    index by index holds, when the loop is over, the images of the
    elements in order; the loop panics where the first image does. *)
Lemma for_range_fill_prefix {A B} (f : A → result B) (s : list A) (z : B)
    (k : nat) :
  k ≤ length s →
  for_range k (λ acc i,
      result_bind (slice_get s i) (λ x,
      result_bind (f x) (λ y, slice_set acc i y)))
    (replicate (length s) z) =
  result_bind (result_map f (take k s)) (λ ys,
    Ok (ys ++ replicate (length s - k) z)).
Proof.
  unfold for_range. induction k as [|k IH]; intros Hk.
  - simpl. by rewrite Nat.sub_0_r.
  - rewrite seq_S, foldl_app. simpl. rewrite IH by lia.
    destruct (lookup_lt_is_Some_2 s k) as [x Hx]; [lia|].
    rewrite (take_S_r _ _ _ Hx), result_map_snoc.
    destruct (result_map f (take k s)) as [ys|] eqn:Hys; simpl; [|done].
    unfold slice_get. rewrite Hx. simpl.
    destruct (f x) as [y|]; simpl; [|done].
    apply result_map_length in Hys. rewrite length_take in Hys.
    assert (k = length ys) as -> by lia.
    replace (length s - length ys) with (S (length s - S (length ys))) by lia.
    apply slice_set_middle.
Qed.

Lemma for_range_fill {A B} (f : A → result B) (s : list A) (z : B) :
  for_range (length s) (λ acc i,
      result_bind (slice_get s i) (λ x,
      result_bind (f x) (λ y, slice_set acc i y)))
    (replicate (length s) z) =
  result_map f s.
Proof.
  rewrite for_range_fill_prefix by lia.
  rewrite firstn_all, Nat.sub_diag.
  destruct (result_map f s); simpl; [|done]. by rewrite app_nil_r.
Qed.

Lemma SliceOfPeerIDToSliceOfNodeID_map (peers : list peer_ID) :
  SliceOfPeerIDToSliceOfNodeID peers = Ok (NodeID_PeerID <$> peers).
Proof.
  unfold SliceOfPeerIDToSliceOfNodeID.
  rewrite <-(result_map_Ok NodeID_PeerID peers).
  apply (for_range_fill (λ p, Ok (NodeID_PeerID p))).
Qed.

Lemma for_range_ext {A} (n : nat) (body1 body2 : A → nat → result A)
    (acc : A) :
  (∀ a i, body1 a i = body2 a i) →
  for_range n body1 acc = for_range n body2 acc.
Proof.
  intros Hbody. unfold for_range.
  generalize (Ok acc) as r. generalize (seq 0 n) as l.
  induction l as [|i l IH]; intros r; simpl; [done|].
  rewrite <-IH. f_equal. destruct r; simpl; [|done]. apply Hbody.
Qed.

Lemma SliceOfNodeInfoToSliceOfAddrInfo_map (infos : list NodeInfo) :
  SliceOfNodeInfoToSliceOfAddrInfo infos = result_map NodeInfoToAddrInfo infos.
Proof.
  unfold SliceOfNodeInfoToSliceOfAddrInfo.
  rewrite <-(for_range_fill NodeInfoToAddrInfo infos AddrInfo_zero).
  apply for_range_ext. intros peers i.
  destruct (slice_get infos i) as [info|]; simpl; [|done].
  unfold NodeInfoToAddrInfo. by destruct (assert_PeerID _).
Qed.

Lemma result_map_lookup {A B} (f : A → result B) (s : list A) ys i :
  result_map f s = Ok ys → Ok <$> ys !! i = f <$> s !! i.
Proof.
  revert ys i. induction s as [|a s IH]; simpl; intros ys i.
  - by intros [= <-].
  - destruct (f a) as [b|] eqn:Hb; simpl; [|done].
    destruct (result_map f s) as [ys'|]; simpl; [|done].
    intros [= <-]. destruct i as [|i]; simpl; [by rewrite Hb|].
    by apply IH.
Qed.

Lemma result_map_Panic_elem {A B} (f : A → result B) (s : list A) v :
  result_map f s = Panic v → ∃ x, x ∈ s ∧ f x = Panic v.
Proof.
  induction s as [|a s IH]; simpl; [done|].
  destruct (f a) as [b|v'] eqn:Hfa; simpl.
  - destruct (result_map f s) as [ys|v'']; simpl; [done|].
    intros [= ->]. destruct IH as (x & Hx & Hfx); [done|].
    exists x. split; [by right|done].
  - intros [= ->]. exists a. split; [by left|done].
Qed.

Lemma result_map_some_Panic {A B} (f : A → result B) (s : list A) x v :
  x ∈ s → f x = Panic v → ∃ v', result_map f s = Panic v'.
Proof.
  intros Hx Hfx. destruct (result_map f s) as [ys|v'] eqn:Hmap; [|by eexists].
  apply list_elem_of_lookup in Hx as [i Hi].
  pose proof (result_map_lookup f s ys i Hmap) as Hlook.
  rewrite Hi in Hlook. simpl in Hlook. rewrite Hfx in Hlook.
  by destruct (ys !! i).
Qed.

(** C6: every conversion at the identity boundary panics on an identity
    whose dynamic type is not [kadt.PeerID] (for a slice: as soon as one
    element has such an identity, and then with the type-assertion
    failure of such an element), and on identities of type
    [kadt.PeerID] it returns the converted value. *)
Theorem C6_conversions_fail_loudly :
  (∀ id : NodeID, is_PeerID id = false →
     NodeIDToAddrInfo id = Panic (InterfaceConversion id) ∧
     NodeIDToPeerID id = Panic (InterfaceConversion id)) ∧
  (∀ info : NodeInfo, is_PeerID (NodeInfo_ID info) = false →
     NodeInfoToAddrInfo info =
     Panic (InterfaceConversion (NodeInfo_ID info))) ∧
  (∀ (infos : list NodeInfo) (info : NodeInfo),
     info ∈ infos → is_PeerID (NodeInfo_ID info) = false →
     ∃ bad, bad ∈ infos ∧ is_PeerID (NodeInfo_ID bad) = false ∧
       SliceOfNodeInfoToSliceOfAddrInfo infos =
       Panic (InterfaceConversion (NodeInfo_ID bad))) ∧
  (∀ p : PeerID,
     NodeIDToAddrInfo (NodeID_PeerID p) = Ok {| ID := p; Addrs := [] |} ∧
     NodeIDToPeerID (NodeID_PeerID p) = Ok p) ∧
  (∀ (p : PeerID) (addrs : list Multiaddr),
     NodeInfoToAddrInfo (mkNodeInfo (NodeID_PeerID p) addrs) =
     Ok (mkAddrInfo p addrs)) ∧
  (∀ l : list (PeerID * list Multiaddr),
     SliceOfNodeInfoToSliceOfAddrInfo
       ((λ x, mkNodeInfo (NodeID_PeerID x.1) x.2) <$> l) =
     Ok ((λ x, mkAddrInfo x.1 x.2) <$> l)).
Proof.
  split_and!.
  - intros id Hid. by destruct id.
  - intros info Hinfo. unfold NodeInfoToAddrInfo.
    by destruct (NodeInfo_ID info).
  - intros infos info Hin Hbad. rewrite SliceOfNodeInfoToSliceOfAddrInfo_map.
    destruct (result_map_some_Panic NodeInfoToAddrInfo infos info
                (InterfaceConversion (NodeInfo_ID info))) as [v Hv]; [done| |].
    { unfold NodeInfoToAddrInfo. by destruct (NodeInfo_ID info). }
    destruct (result_map_Panic_elem _ _ _ Hv) as (bad & Hbadin & Hconv).
    exists bad. rewrite Hv. unfold NodeInfoToAddrInfo in Hconv.
    destruct (NodeInfo_ID bad) eqn:Hid; simpl in Hconv;
      try done; by injection Hconv as <-.
  - done.
  - done.
  - intros l. rewrite SliceOfNodeInfoToSliceOfAddrInfo_map.
    induction l as [|[p addrs] l IH]; [done|].
    rewrite !fmap_cons. cbn [result_map]. rewrite IH. done.
Qed.

(** C10: converting a slice of peer IDs returns a slice of the same
    length whose [i]-th element [NodeIDToPeerID] converts back, without
    panicking, to the [i]-th peer ID. *)
Theorem C10_peer_ids_round_trip (ps : list peer_ID) :
  ∃ nodes : list NodeID,
    SliceOfPeerIDToSliceOfNodeID ps = Ok nodes ∧
    length nodes = length ps ∧
    ∀ i : nat, NodeIDToPeerID <$> nodes !! i = Ok <$> ps !! i.
Proof.
  exists (NodeID_PeerID <$> ps). split; [apply SliceOfPeerIDToSliceOfNodeID_map|].
  split; [by rewrite length_fmap|].
  intros i. rewrite list_lookup_fmap. unfold PeerID.
  by destruct (ps !! i).
Qed.

End ConversionFacts.

(** ** query.go *)

Section BehaviourFacts.
Context `{Collaborators}.

Implicit Types (p : PooledQueryBehaviour) (ev : BehaviourEvent).
Implicit Types (cmd : PoolEvent) (st : PoolState).

Lemma select_send_default_cap ch :
  chan_cap (select_send_default ch) = chan_cap ch.
Proof. unfold select_send_default. by destruct (decide _). Qed.

Lemma select_send_default_len ch :
  chan_len ch ≤ chan_cap ch →
  chan_len (select_send_default ch) ≤ chan_cap ch.
Proof.
  unfold select_send_default. destruct (decide _); simpl; lia.
Qed.

(** Unfolding the code of a method down to the pool and the fields. *)
Ltac run_go :=
  unfold Notify, Perform, Perform_round, advancePool, pool_Advance,
    with_defer, Lock, Unlock, append_pending, waiter_Notify, waiter_Close,
    signal_ready, lift, panic, gets, modify, mbind, M_bind, mret, M_ret;
  simpl.

Lemma bind_eq {A B} (m : M A) (k : A → M B) p :
  (m ≫= k) p =
  match m p with
  | (Returned a, p') => k a p'
  | (Panicked v, p') => (Panicked v, p')
  | (Blocked, p') => (Blocked, p')
  end.
Proof. reflexivity. Qed.

Lemma advancePool_eq cmd p :
  advancePool cmd p =
  advancePool_by_state (Advance (pool p) cmd).1 (Advance (pool p) cmd).2 p.
Proof.
  unfold advancePool_by_state. run_go.
  destruct (Advance (pool p) cmd) as [pool' st]; simpl.
  destruct p as [pl ws mu q r d]; simpl.
  destruct st as [qid [| |] pr msg| | |qid stats|qid| |t]; simpl;
    rewrite ?app_nil_r; try done.
  unfold set_delivered, set_pool; simpl.
  destruct (ws !! qid); simpl; rewrite ?app_nil_r, <-?app_assoc; done.
Qed.

Lemma queue_AddAddrInfo (closer : list AddrInfo) p :
  foldr (λ info rest, append_pending (EventAddAddrInfo info);; rest)
    (mret ()) closer p =
  (Returned (), set_pending (pending p ++ (EventAddAddrInfo <$> closer)) p).
Proof.
  revert p. induction closer as [|info closer IH]; intros p.
  - simpl. rewrite app_nil_r. by destruct p.
  - simpl. run_go. rewrite IH. simpl. by rewrite <-app_assoc.
Qed.

Lemma state_outcome_not_Blocked st : state_outcome st ≠ Blocked.
Proof. by destruct st as [? [| |] ? ?| | | | | |]. Qed.

Lemma Notify_tail cmd p :
  ('(ev', ok) ← advancePool cmd;
   (if ok : bool then append_pending ev' else mret ());;
   q ← gets pending;
   if decide (0 < length q) then signal_ready else mret ()) p =
  let st := (Advance (pool p) cmd).2 in
  let o := state_outcome st in
  let q := pending p ++ outcome_events o in
  (unit_outcome o,
   {| pool := (Advance (pool p) cmd).1;
      waiters := waiters p;
      pendingMu := pendingMu p;
      pending := q;
      ready := match o with
               | Returned _ =>
                   if decide (0 < length q)
                   then select_send_default (ready p) else ready p
               | _ => ready p
               end;
      delivered := delivered p ++ state_calls st (waiters p) |}).
Proof.
  rewrite bind_eq, advancePool_eq. unfold advancePool_by_state.
  destruct (Advance (pool p) cmd) as [pool' st]; simpl.
  destruct p as [pl ws mu q r d]; simpl.
  destruct (state_outcome st) as [[e [|]]| |]; simpl;
    rewrite ?app_nil_r; run_go; try done; by destruct (decide _).
Qed.

Lemma Notify_table ev cmd p :
  pendingMu p = false →
  table_pool_event ev = Some cmd →
  Notify ev p =
  Notify_by_table ev (Advance (pool p) cmd).1 (Advance (pool p) cmd).2 p.
Proof.
  intros Hmu Hcmd. unfold Notify_by_table.
  destruct p as [pl ws mu q r d]; simpl in *; subst mu.
  destruct ev; simplify_eq/=;
    unfold Notify, with_defer, Lock, Unlock; rewrite !bind_eq; simpl;
    rewrite ?bind_eq, ?SliceOfPeerIDToSliceOfNodeID_map, ?queue_AddAddrInfo;
    simpl.
  - destruct Notify0; simpl; rewrite Notify_tail; simpl;
      by destruct (state_outcome _) eqn:Ho;
        [..|apply state_outcome_not_Blocked in Ho].
  - rewrite Notify_tail; simpl.
    by destruct (state_outcome _) eqn:Ho;
      [..|apply state_outcome_not_Blocked in Ho].
  - rewrite !bind_eq; simpl.
    destruct (ws !! QueryID0); simpl; rewrite Notify_tail; simpl;
      rewrite <-?app_assoc, ?app_nil_r;
      by destruct (state_outcome _) eqn:Ho;
        [..|apply state_outcome_not_Blocked in Ho].
  - rewrite Notify_tail; simpl.
    by destruct (state_outcome _) eqn:Ho;
      [..|apply state_outcome_not_Blocked in Ho].
Qed.

Lemma Notify_not_inbound ev p :
  pendingMu p = false →
  is_inbound ev = false →
  Notify ev p =
  (Panicked (PanicMessage ("unexpected dht event: " +:+ type_name ev)), p).
Proof.
  intros Hmu Hev. destruct p as [pl ws mu q r d]; simpl in *; subst mu.
  by destruct ev.
Qed.

Lemma Notify_locked ev p : pendingMu p = true → Notify ev p = (Blocked, p).
Proof. intros Hmu. unfold Notify, Lock. by rewrite bind_eq, Hmu. Qed.

Lemma Perform_locked fuel p :
  pendingMu p = true → Perform fuel p = (Blocked, p).
Proof. intros Hmu. unfold Perform, Lock. by rewrite bind_eq, Hmu. Qed.

Lemma Perform_no_fuel p :
  pendingMu p = false → Perform 0 p = (Returned None, p).
Proof. intros Hmu. destruct p; simpl in *; by subst. Qed.

(** With an event pending, the first round of the loop returns it. *)
Lemma Perform_pending fuel ev rest p :
  pendingMu p = false →
  pending p = ev :: rest →
  Perform (S fuel) p =
  (Returned (Some (ev, true)),
   set_ready (if decide (0 < length rest)
              then select_send_default (ready p) else ready p)
     (set_pending rest p)).
Proof.
  intros Hmu Hq. destruct p as [pl ws mu q r d]; simpl in *; subst mu q.
  unfold Perform. cbn [Perform_loop]. run_go. by destruct (decide _).
Qed.

(** With nothing pending, the first round polls the pool once and returns
    whatever [advancePool] made of the answer; the loop never goes round a
    second time. *)
Lemma Perform_empty fuel p :
  pendingMu p = false →
  pending p = [] →
  Perform (S fuel) p =
  Perform_by_state (Advance (pool p) EventPoolPoll).1
    (Advance (pool p) EventPoolPoll).2 p.
Proof.
  intros Hmu Hq. unfold Perform_by_state.
  unfold Perform, with_defer, Lock, Unlock. rewrite bind_eq, Hmu.
  cbn [Perform_loop]. unfold Perform_round. rewrite !bind_eq.
  unfold gets at 1. cbn [pending set_pendingMu]. rewrite Hq.
  rewrite bind_eq, advancePool_eq. unfold advancePool_by_state.
  destruct (Advance _ _) as [pool' st]; simpl.
  destruct p as [pl ws mu q r d]; simpl in *; subst mu q.
  destruct (state_outcome st) as [[e [|]]| |] eqn:Ho; simpl; try done.
  - destruct st as [? [| |] ? ?| | | | | |]; simplify_eq/=; done.
  - by apply state_outcome_not_Blocked in Ho.
Qed.

Lemma Notify_cases ev p :
  pendingMu p = false →
  (is_inbound ev = false ∧ Notify ev p =
     (Panicked (PanicMessage ("unexpected dht event: " +:+ type_name ev)), p))
  ∨ (∃ cmd, table_pool_event ev = Some cmd ∧ Notify ev p =
       Notify_by_table ev (Advance (pool p) cmd).1 (Advance (pool p) cmd).2 p).
Proof.
  intros Hmu. destruct (table_pool_event ev) as [cmd|] eqn:Hcmd.
  - right. exists cmd. split; [done|]. by apply Notify_table.
  - left. assert (is_inbound ev = false) by by destruct ev.
    split; [done|]. by apply Notify_not_inbound.
Qed.

Lemma Perform_cases fuel p :
  pendingMu p = false →
  (fuel = 0 ∧ Perform fuel p = (Returned None, p))
  ∨ (fuel ≠ 0 ∧ ∃ ev rest, pending p = ev :: rest ∧ Perform fuel p =
       (Returned (Some (ev, true)),
        set_ready (if decide (0 < length rest)
                   then select_send_default (ready p) else ready p)
          (set_pending rest p)))
  ∨ (fuel ≠ 0 ∧ pending p = [] ∧ Perform fuel p =
       Perform_by_state (Advance (pool p) EventPoolPoll).1
         (Advance (pool p) EventPoolPoll).2 p).
Proof.
  intros Hmu. destruct fuel as [|fuel].
  - left. split; [done|]. by apply Perform_no_fuel.
  - right. destruct (pending p) as [|ev rest] eqn:Hq.
    + right. split_and!; [done..|]. by apply Perform_empty.
    + left. split; [done|]. exists ev, rest. split; [done|].
      by apply Perform_pending.
Qed.

(** Every call leaves the mutex free. *)
Lemma after_unlocked c p : pendingMu p = false → pendingMu (after c p) = false.
Proof.
  intros Hmu. destruct c as [ev|fuel|]; simpl; [| |done].
  - destruct (Notify_cases ev p Hmu) as [[_ ->]|(cmd & _ & ->)]; done.
  - destruct (Perform_cases fuel p Hmu)
      as [[_ ->]|[(_ & ev & rest & _ & ->)|(_ & _ & ->)]]; done.
Qed.

Lemma after_all_unlocked cs p :
  pendingMu p = false → pendingMu (after_all cs p) = false.
Proof.
  revert p. induction cs as [|c cs IH]; intros p Hmu; [done|].
  simpl. apply IH. by apply after_unlocked.
Qed.

(** A call of [Notify] only appends to the queue. *)
Lemma Notify_pending ev p :
  pendingMu p = false →
  pending (Notify ev p).2 = pending p ++ queued_by_one ev p.
Proof.
  intros Hmu. unfold queued_by_one.
  destruct (Notify_cases ev p Hmu) as [[Hno ->]|(cmd & Hcmd & ->)].
  - destruct (table_pool_event ev) eqn:Hcmd; [by destruct ev|].
    simpl. by rewrite app_nil_r.
  - by rewrite Hcmd.
Qed.

Lemma Notify_all_pending evs p :
  pendingMu p = false →
  pending (after_all (DoNotify <$> evs) p) = pending p ++ queued_by evs p.
Proof.
  revert p. induction evs as [|ev evs IH]; intros p Hmu; simpl.
  - by rewrite app_nil_r.
  - rewrite IH by by apply (after_unlocked (DoNotify ev)).
    rewrite Notify_pending by done. by rewrite app_assoc.
Qed.

(** As many calls of [Perform] as there are events pending return the
    events from the head of the queue on, and leave the pool alone. *)
Lemma drain_pending p :
  pendingMu p = false →
  (drain (length (pending p)) p).1 = pending p ∧
  pending (drain (length (pending p)) p).2 = [] ∧
  pool (drain (length (pending p)) p).2 = pool p.
Proof.
  remember (pending p) as q eqn:Hq. revert p Hq.
  induction q as [|ev rest IH]; intros p Hq Hmu; simpl.
  - done.
  - rewrite (Perform_pending 0 ev rest p) by done.
    set (p' := set_ready _ _).
    destruct (IH p') as (Hevs & Hrest & Hpool); [done|done|].
    destruct (drain (length rest) p') as [evs p'']; simpl in *.
    by rewrite Hevs.
Qed.

(** What a call returns, followed by what it leaves in the queue, is what
    it found in the queue followed by what it produced. *)
Lemma after_fifo c p :
  pendingMu p = false →
  returned_by c p ++ pending (after c p) = pending p ++ produced_by c p.
Proof.
  intros Hmu. destruct c as [ev|fuel|]; simpl.
  - by apply Notify_pending.
  - destruct (Perform_cases fuel p Hmu)
      as [[-> ->]|[(Hfuel & ev & rest & Hq & ->)|(Hfuel & Hq & ->)]]; simpl.
    + by rewrite app_nil_r.
    + rewrite Hq. destruct fuel; by rewrite app_nil_r.
    + rewrite Hq. destruct fuel as [|fuel]; [done|].
      by destruct (state_outcome _) as [[e [|]]| |].
  - by rewrite app_nil_r.
Qed.

Lemma after_all_fifo cs p :
  pendingMu p = false →
  returned cs p ++ pending (after_all cs p) = pending p ++ produced cs p.
Proof.
  revert p. induction cs as [|c cs IH]; intros p Hmu; simpl.
  - by rewrite app_nil_r.
  - rewrite <-app_assoc, IH by by apply after_unlocked.
    by rewrite !app_assoc, after_fifo.
Qed.

(** C8: the dispatch on the event and on the pool state has a default
    branch that panics. [Notify] panics on every event that is none of the
    four it accepts, before it touches the behaviour; [advancePool] panics
    on every pool state that is none of the six it handles, and the panic
    aborts the call of [Notify] or [Perform] that advanced the pool. *)
Theorem C8_unknown_variants_panic :
  (∀ ev p, pendingMu p = false → is_inbound ev = false →
     Notify ev p =
     (Panicked (PanicMessage ("unexpected dht event: " +:+ type_name ev)), p)) ∧
  (∀ cmd p, is_known_state (Advance (pool p) cmd).2 = false →
     ∃ t, (Advance (pool p) cmd).2 = StatePool_other t ∧
       (advancePool cmd p).1 =
       Panicked (PanicMessage ("unexpected pool state: " +:+ t))) ∧
  (∀ ev cmd p, pendingMu p = false → table_pool_event ev = Some cmd →
     is_known_state (Advance (pool p) cmd).2 = false →
     ∃ t, (Notify ev p).1 =
       Panicked (PanicMessage ("unexpected pool state: " +:+ t))) ∧
  (∀ fuel p, pendingMu p = false → pending p = [] →
     is_known_state (Advance (pool p) EventPoolPoll).2 = false →
     ∃ t, (Perform (S fuel) p).1 =
       Panicked (PanicMessage ("unexpected pool state: " +:+ t))).
Proof.
  split_and!.
  - intros ev p Hmu Hev. by apply Notify_not_inbound.
  - intros cmd p Hst. rewrite advancePool_eq. simpl.
    destruct (Advance (pool p) cmd).2; try done. by eexists.
  - intros ev cmd p Hmu Hcmd Hst. rewrite (Notify_table ev cmd) by done.
    simpl. destruct (Advance (pool p) cmd).2; try done. by eexists.
  - intros fuel p Hmu Hq Hst. rewrite Perform_empty by done. simpl.
    destruct (Advance (pool p) EventPoolPoll).2; try done. by eexists.
Qed.

(** C3: [Notify] translates every event it accepts by the table. The pool
    is advanced, once, with the pool event of the table; the waiter
    registry, the queue and the calls on waiters change by the side effect
    of the table, followed by what the pool's answer asks for. *)
Theorem C3_translation_table ev p :
  pendingMu p = false →
  is_inbound ev = true →
  ∃ cmd, table_pool_event ev = Some cmd ∧
    let p' := (Notify ev p).2 in
    let st := (Advance (pool p) cmd).2 in
    pool p' = (Advance (pool p) cmd).1 ∧
    waiters p' = table_registry ev (waiters p) ∧
    pending p' =
      pending p ++ table_queued ev ++ outcome_events (state_outcome st) ∧
    delivered p' =
      delivered p ++ table_notified ev (waiters p)
        ++ state_calls st (waiters p').
Proof.
  intros Hmu Hev. destruct (Notify_cases ev p Hmu) as [[Hno _]|(cmd & Hcmd & ->)].
  - congruence.
  - exists cmd. split; [done|]. done.
Qed.

(** C2: with events pending, [Perform] returns the head of the queue,
    removes exactly that event and does not advance the pool. With nothing
    pending it advances the pool once with [EventPoolPoll], in the first
    round of its loop, and returns the outbound request for a
    [StatePoolQueryMessage] and [(nil, false)] for the five states that
    ask for no request. Every call leaves the mutex free. Over every
    sequence of calls on a new behaviour, the events the calls of
    [Perform] returned, followed by those still pending, are the events
    produced, in the order of their production; a call of [Notify]
    appends what it produces before it returns, so that the events of
    calls of [Notify] in a row come out of as many calls of [Perform] in
    that order, after those already pending. *)
Theorem C2_Perform_drains_in_order :
  (∀ fuel ev rest p, pendingMu p = false → pending p = ev :: rest →
     (Perform (S fuel) p).1 = Returned (Some (ev, true)) ∧
     pending (Perform (S fuel) p).2 = rest ∧
     pool (Perform (S fuel) p).2 = pool p) ∧
  (∀ fuel p, pendingMu p = false → pending p = [] →
     let st := (Advance (pool p) EventPoolPoll).2 in
     (Perform (S fuel) p).1 =
       match state_outcome st with
       | Returned r => Returned (Some r)
       | Panicked v => Panicked v
       | Blocked => Blocked
       end ∧
     (∀ q n proto msg, st = StatePoolQueryMessage q (NodeID_PeerID n) proto msg →
        (Perform (S fuel) p).1 =
        Returned (Some (EventOutboundGetCloserNodes q
                          {| ID := n; Addrs := [] |} (Target msg)
                          ThisBehaviour, true))) ∧
     (nothing_to_do st = true →
        (Perform (S fuel) p).1 = Returned (Some (Event_nil, false))) ∧
     pool (Perform (S fuel) p).2 = (Advance (pool p) EventPoolPoll).1 ∧
     pending (Perform (S fuel) p).2 = []) ∧
  (∀ pl calls, pendingMu (after_all calls (NewPooledQueryBehaviour pl)) = false) ∧
  (∀ pl calls,
     let p0 := NewPooledQueryBehaviour pl in
     returned calls p0 ++ pending (after_all calls p0) = produced calls p0) ∧
  (∀ evs p, pendingMu p = false →
     let p' := after_all (DoNotify <$> evs) p in
     pending p' = pending p ++ queued_by evs p ∧
     (drain (length (pending p')) p').1 = pending p ++ queued_by evs p ∧
     pending (drain (length (pending p')) p').2 = []).
Proof.
  split_and!.
  - intros fuel ev rest p Hmu Hq. by rewrite (Perform_pending fuel ev rest).
  - intros fuel p Hmu Hq. rewrite Perform_empty by done. simpl.
    split_and!; [done| | |done..].
    + by intros q n proto msg ->.
    + by destruct (Advance (pool p) EventPoolPoll).2.
  - intros pl calls. by apply after_all_unlocked.
  - intros pl calls p0. by rewrite after_all_fifo.
  - intros evs p Hmu p'.
    assert (pendingMu p' = false) as Hmu' by by apply after_all_unlocked.
    destruct (drain_pending p' Hmu') as (Hevs & Hrest & _).
    split_and!; [by apply Notify_all_pending| |done].
    rewrite Hevs. by apply Notify_all_pending.
Qed.

Lemma after_ready c p :
  chan_cap (ready p) = 1 → chan_len (ready p) ≤ 1 →
  chan_cap (ready (after c p)) = 1 ∧ chan_len (ready (after c p)) ≤ 1.
Proof.
  intros Hcap Hlen.
  assert (chan_cap (select_send_default (ready p)) = 1 ∧
          chan_len (select_send_default (ready p)) ≤ 1) as [Hcap' Hlen'].
  { rewrite select_send_default_cap. split; [done|].
    rewrite <-Hcap. apply select_send_default_len. lia. }
  destruct (pendingMu p) eqn:Hmu; destruct c as [ev|fuel|];
    unfold after, Ready; simpl.
  - by rewrite Notify_locked.
  - by rewrite Perform_locked.
  - split; [done|lia].
  - destruct (Notify_cases ev p Hmu) as [[_ ->]|(cmd & _ & ->)]; [done|].
    simpl. destruct (state_outcome _); [|done..]. by destruct (decide _).
  - destruct (Perform_cases fuel p Hmu)
      as [[_ ->]|[(_ & ev & rest & _ & ->)|(_ & _ & ->)]]; [done| |done].
    simpl. by destruct (decide _).
  - split; [done|lia].
Qed.

(** C5: a call of [Notify] that returns with the queue non-empty, and a
    call of [Perform] that leaves events behind, has made the send of
    [select] with [default] on [ready], and no other call touches the
    channel. On the one-slot channel that send stores a token in the
    empty slot and changes nothing when the slot is full. With the mutex
    free neither method blocks, and however the methods are called, and
    whenever the loop receives from the channel, [ready] holds at most
    one token. *)
Theorem C5_ready_signal :
  (∀ ev p, pendingMu p = false → (Notify ev p).1 = Returned () →
     ready (Notify ev p).2 =
     if decide (0 < length (pending (Notify ev p).2))
     then select_send_default (ready p) else ready p) ∧
  (∀ fuel ev rest p, pendingMu p = false → pending p = ev :: rest →
     ready (Perform (S fuel) p).2 =
     if decide (0 < length rest)
     then select_send_default (ready p) else ready p) ∧
  (∀ fuel p, pendingMu p = false → pending p = [] →
     ready (Perform fuel p).2 = ready p) ∧
  (∀ ch, chan_cap ch = 1 →
     (chan_len ch = 0 → chan_len (select_send_default ch) = 1) ∧
     (chan_len ch = 1 → select_send_default ch = ch)) ∧
  (∀ ev p, pendingMu p = false → (Notify ev p).1 ≠ Blocked) ∧
  (∀ fuel p, pendingMu p = false → (Perform fuel p).1 ≠ Blocked) ∧
  (∀ pool calls,
     let p := after_all calls (NewPooledQueryBehaviour pool) in
     chan_cap (ready p) = 1 ∧ chan_len (ready p) ≤ 1).
Proof.
  split_and!.
  - intros ev p Hmu.
    destruct (Notify_cases ev p Hmu) as [[_ ->]|(cmd & _ & ->)]; [done|].
    simpl. by destruct (state_outcome _).
  - intros fuel ev rest p Hmu Hq. by rewrite (Perform_pending fuel ev rest).
  - intros fuel p Hmu Hq.
    destruct (Perform_cases fuel p Hmu)
      as [[_ ->]|[(_ & ev & rest & ? & _)|(_ & _ & ->)]]; [done|congruence|done].
  - intros ch Hcap. unfold select_send_default. rewrite Hcap.
    split; intros Hlen; rewrite Hlen; by destruct (decide _); try lia.
  - intros ev p Hmu.
    destruct (Notify_cases ev p Hmu) as [[_ ->]|(cmd & _ & ->)]; [done|].
    simpl. destruct (state_outcome _) eqn:Ho; [done..|].
    by apply state_outcome_not_Blocked in Ho.
  - intros fuel p Hmu.
    destruct (Perform_cases fuel p Hmu)
      as [[_ ->]|[(_ & ev & rest & _ & ->)|(_ & _ & ->)]]; [done..|].
    simpl. destruct (state_outcome _) eqn:Ho; [done..|].
    by apply state_outcome_not_Blocked in Ho.
  - intros pl calls. unfold after_all.
    generalize (NewPooledQueryBehaviour pl) (eq_refl : chan_cap (ready (NewPooledQueryBehaviour pl)) = 1)
      (Nat.le_0_l 1 : chan_len (ready (NewPooledQueryBehaviour pl)) ≤ 1).
    induction calls as [|c calls IH]; intros p Hcap Hlen; [done|].
    simpl. destruct (after_ready c p Hcap Hlen). by apply IH.
Qed.

Lemma state_calls_about q st (ws : gmap QueryID Waiter) :
  ws !! q = None → Forall (λ c, notifies_about q c = false) (state_calls st ws).
Proof.
  intros Hq. destruct st as [| | |q' stats| | |]; simpl; try done.
  destruct (ws !! q') as [w|] eqn:Hq'; [|done].
  repeat constructor. simpl. apply bool_decide_eq_false. congruence.
Qed.

Lemma table_notified_about q ev (ws : gmap QueryID Waiter) :
  ws !! q = None →
  Forall (λ c, notifies_about q c = false) (table_notified ev ws).
Proof.
  intros Hq. destruct ev as [| | |q' to target closer| | | | | |]; simpl;
    try done.
  destruct (ws !! q') as [w|] eqn:Hq'; [|done].
  repeat constructor. simpl. apply bool_decide_eq_false. congruence.
Qed.

Lemma table_registry_None q ev (ws : gmap QueryID Waiter) :
  supplies_target q (DoNotify ev) = false →
  ws !! q = None → table_registry ev ws !! q = None.
Proof.
  intros Hev Hq. destruct ev as [|q' ? ? ? ? [w|]| | | | | | | |]; simpl in *;
    try done.
  apply bool_decide_eq_false in Hev. by rewrite lookup_insert_ne.
Qed.

(** A query without a registration stays without one, and unheard of by
    every waiter, over a call that does not register a waiter for it. *)
Lemma after_unregistered q c p :
  supplies_target q c = false →
  waiters p !! q = None →
  Forall (λ c, notifies_about q c = false) (delivered p) →
  waiters (after c p) !! q = None ∧
  Forall (λ c, notifies_about q c = false) (delivered (after c p)).
Proof.
  intros Hc Hq Hd.
  destruct (pendingMu p) eqn:Hmu; destruct c as [ev|fuel|]; unfold after.
  - by rewrite Notify_locked.
  - by rewrite Perform_locked.
  - done.
  - destruct (Notify_cases ev p Hmu) as [[_ ->]|(cmd & _ & ->)]; [done|].
    simpl. pose proof (table_registry_None q ev _ Hc Hq) as Hq'.
    split; [done|]. rewrite !Forall_app.
    split_and!; [done|by apply table_notified_about|by apply state_calls_about].
  - destruct (Perform_cases fuel p Hmu)
      as [[_ ->]|[(_ & ev & rest & _ & ->)|(_ & _ & ->)]]; [done..|].
    simpl. split; [done|]. rewrite Forall_app.
    split; [done|by apply state_calls_about].
  - done.
Qed.

(** C7: when no call starts the query [q] with a notification target, no
    waiter is ever registered for [q] and no waiter is ever notified of
    progress or of the end of [q], whatever the pool answers. *)
Theorem C7_fire_and_forget (q : QueryID) (pl : Pool) (calls : list Call) :
  Forall (λ c, supplies_target q c = false) calls →
  let p := after_all calls (NewPooledQueryBehaviour pl) in
  waiters p !! q = None ∧
  Forall (λ c, notifies_about q c = false) (delivered p).
Proof.
  unfold after_all.
  assert (waiters (NewPooledQueryBehaviour pl) !! q = None) as Hq by done.
  assert (Forall (λ c, notifies_about q c = false)
            (delivered (NewPooledQueryBehaviour pl))) as Hd by constructor.
  revert Hq Hd. generalize (NewPooledQueryBehaviour pl).
  induction calls as [|c calls IH]; intros p Hq Hd Hcalls; [done|].
  apply Forall_cons in Hcalls as [Hc Hcalls]. simpl.
  destruct (after_unregistered q c p Hc Hq Hd) as [Hq' Hd'].
  by apply IH.
Qed.

(** No call removes an entry of the waiter registry. *)
Lemma after_registered q c p :
  is_Some (waiters p !! q) → is_Some (waiters (after c p) !! q).
Proof.
  intros Hq.
  destruct (pendingMu p) eqn:Hmu; destruct c as [ev|fuel|]; unfold after.
  - by rewrite Notify_locked.
  - by rewrite Perform_locked.
  - done.
  - destruct (Notify_cases ev p Hmu) as [[_ ->]|(cmd & _ & ->)]; [done|].
    simpl. destruct ev as [|q' ? ? ? ? [w|]| | | | | | | |]; simpl; try done.
    destruct (decide (q' = q)) as [->|Hne].
    + rewrite lookup_insert_eq. by eexists.
    + by rewrite lookup_insert_ne.
  - destruct (Perform_cases fuel p Hmu)
      as [[_ ->]|[(_ & ev & rest & _ & ->)|(_ & _ & ->)]]; done.
  - done.
Qed.

Lemma after_all_registered q cs p :
  is_Some (waiters p !! q) → is_Some (waiters (after_all cs p) !! q).
Proof.
  revert p. induction cs as [|c cs IH]; intros p Hq; [done|].
  simpl. apply IH. by apply after_registered.
Qed.

(** On [StatePoolQueryFinished], for every pool, the waiter of the query
    is notified and closed but stays in the registry, so the next answer
    for the query reaches it after [Close]. *)
Lemma finished_waiter_notified_again q w stats cmd p to target closer :
  pendingMu p = false →
  waiters p !! q = Some w →
  (Advance (pool p) cmd).2 = StatePoolQueryFinished q stats →
  let p1 := (advancePool cmd p).2 in
  delivered p1 =
    delivered p ++ [CallNotify w (EventQueryFinished q stats); CallClose w] ∧
  waiters p1 !! q = Some w ∧
  ∃ later,
    delivered (Notify (EventGetCloserNodesSuccess q to target closer) p1).2 =
    delivered p1
      ++ CallNotify w (EventQueryProgressed q (ID to)
                         (CloserNodesResponse target closer)) :: later.
Proof.
  intros Hmu Hq Hst p1. subst p1. rewrite advancePool_eq.
  unfold advancePool_by_state. rewrite Hst. simpl. rewrite Hq.
  split_and!; [done..|].
  eexists. erewrite Notify_table; [|done..]. simpl. by rewrite Hq.
Qed.

(** On [StatePoolQueryTimeout] the call returns without an event, calls no
    waiter and leaves the registry as it is. *)
Lemma timeout_ignored q cmd p :
  (Advance (pool p) cmd).2 = StatePoolQueryTimeout q →
  advancePool cmd p =
  (Returned (Event_nil, false), set_pool (Advance (pool p) cmd).1 p).
Proof.
  intros Hst. rewrite advancePool_eq. unfold advancePool_by_state.
  rewrite Hst. simpl. rewrite app_nil_r. by destruct p.
Qed.

End BehaviourFacts.

(** * Further properties of the code *)

(** ** conversion.go *)

Section MoreConversionFacts.
Context `{Externals}.

Lemma result_map_first_Panic {A B} (f : A → result B) (s : list A) v :
  result_map f s = Panic v →
  ∃ i x, s !! i = Some x ∧ f x = Panic v ∧
    ∀ j y, j < i → s !! j = Some y → ∃ b, f y = Ok b.
Proof.
  induction s as [|a s IH]; simpl; [done|].
  destruct (f a) as [b|v'] eqn:Hfa; simpl.
  - destruct (result_map f s) as [ys|v'']; simpl; [done|].
    intros [= ->]. destruct IH as (i & x & Hi & Hx & Hbefore); [done|].
    exists (S i), x. split_and!; [done..|].
    intros [|j] y Hj Hy; simplify_eq/=; [by eexists|].
    apply (Hbefore j); [lia|done].
  - intros [= ->]. exists 0, a. split_and!; [done..|]. intros; lia.
Qed.

Lemma NodeInfoToAddrInfo_Panic info v :
  NodeInfoToAddrInfo info = Panic v →
  v = InterfaceConversion (NodeInfo_ID info).
Proof.
  unfold NodeInfoToAddrInfo. destruct (NodeInfo_ID info); simpl; congruence.
Qed.

Lemma NodeInfoToAddrInfo_Ok info a :
  NodeInfoToAddrInfo info = Ok a → is_PeerID (NodeInfo_ID info) = true.
Proof. unfold NodeInfoToAddrInfo. by destruct (NodeInfo_ID info). Qed.

(** X1: converting a slice of node infos converts each element as
    [NodeInfoToAddrInfo] does, in place: when it returns, the result has
    the length of the input and holds at every index the conversion of the
    element at that index; when it panics, it panics as
    [NodeInfoToAddrInfo] does on the first element whose identity is not a
    [kadt.PeerID], all elements before it having one. *)
Theorem X1_slice_conversion_elementwise (infos : list NodeInfo) :
  match SliceOfNodeInfoToSliceOfAddrInfo infos with
  | Ok peers =>
      length peers = length infos ∧
      ∀ i : nat, Ok <$> peers !! i = NodeInfoToAddrInfo <$> infos !! i
  | Panic v =>
      ∃ (i : nat) (info : NodeInfo),
        infos !! i = Some info ∧
        NodeInfoToAddrInfo info = Panic v ∧
        v = InterfaceConversion (NodeInfo_ID info) ∧
        ∀ (j : nat) (info' : NodeInfo), j < i → infos !! j = Some info' →
          is_PeerID (NodeInfo_ID info') = true
  end.
Proof.
  rewrite SliceOfNodeInfoToSliceOfAddrInfo_map.
  destruct (result_map NodeInfoToAddrInfo infos) as [peers|v] eqn:Hmap.
  - split; [by eapply result_map_length|].
    intros i. by eapply result_map_lookup.
  - destruct (result_map_first_Panic _ _ _ Hmap) as (i & info & Hi & Hv & Hbefore).
    exists i, info. split_and!; [done..|by apply NodeInfoToAddrInfo_Panic|].
    intros j info' Hj Hj'. destruct (Hbefore j info' Hj Hj') as [a Ha].
    by eapply NodeInfoToAddrInfo_Ok.
Qed.

End MoreConversionFacts.

(** ** query.go *)

Section MoreBehaviourFacts.
Context `{Collaborators}.

Implicit Types (p : PooledQueryBehaviour) (ev : BehaviourEvent).
Implicit Types (cmd : PoolEvent) (st : PoolState).

(** X2: the loop of [Perform] returns in its first round. Whatever the
    pool answers and whether or not the mutex is free, more rounds than
    one change nothing, and the rounds never run out without a
    [return]. *)
Theorem X2_Perform_returns_in_first_round (fuel : nat) p :
  Perform (S fuel) p = Perform 1 p ∧
  (Perform (S fuel) p).1 ≠ Returned None.
Proof.
  destruct (pendingMu p) eqn:Hmu.
  - by rewrite !Perform_locked.
  - destruct (pending p) as [|ev rest] eqn:Hq.
    + rewrite !Perform_empty by done. split; [done|]. simpl.
      by destruct (state_outcome _).
    + by rewrite (Perform_pending fuel ev rest), (Perform_pending 0 ev rest).
Qed.

(** X4: when the pool asks for a request to a node on whose identity
    [NodeIDToAddrInfo] panics, [advancePool] panics with the same value,
    after the pool has moved on; the call of [Notify] or [Perform] that
    advanced the pool panics with it too, releases the mutex on its way
    out, queues no request and sends no signal. *)
Theorem X4_conversion_panic_aborts_the_call (q : QueryID) (id : NodeID)
    (proto : ProtocolID) (msg : Request) (v : PanicValue) cmd p :
  pendingMu p = false →
  (Advance (pool p) cmd).2 = StatePoolQueryMessage q id proto msg →
  NodeIDToAddrInfo id = Panic v →
  advancePool cmd p = (Panicked v, set_pool (Advance (pool p) cmd).1 p) ∧
  (∀ ev, table_pool_event ev = Some cmd →
     (Notify ev p).1 = Panicked v ∧
     pendingMu (Notify ev p).2 = false ∧
     pool (Notify ev p).2 = (Advance (pool p) cmd).1 ∧
     pending (Notify ev p).2 = pending p ++ table_queued ev ∧
     ready (Notify ev p).2 = ready p) ∧
  (∀ fuel, cmd = EventPoolPoll → pending p = [] →
     Perform (S fuel) p =
     (Panicked v, set_pool (Advance (pool p) EventPoolPoll).1 p)).
Proof.
  intros Hmu Hst Hid.
  assert (state_outcome (Advance (pool p) cmd).2 = Panicked v) as Ho.
  { rewrite Hst. unfold NodeIDToAddrInfo in Hid.
    destruct id; simpl in *; by simplify_eq. }
  assert (state_calls (Advance (pool p) cmd).2 = λ _, []) as Hc
    by by rewrite Hst.
  split_and!.
  - rewrite advancePool_eq. unfold advancePool_by_state.
    rewrite Ho, Hc, app_nil_r. by destruct p.
  - intros ev Hcmd. rewrite (Notify_table ev cmd) by done.
    unfold Notify_by_table. rewrite Ho. simpl. by rewrite app_nil_r.
  - intros fuel -> Hq. rewrite Perform_empty by done.
    unfold Perform_by_state. rewrite Ho, Hc, app_nil_r. by destruct p.
Qed.

Lemma after_all_snoc cs c p :
  after_all (cs ++ [c]) p = after c (after_all cs p).
Proof. unfold after_all. by rewrite foldl_app. Qed.

Lemma after_all_ready cs p :
  chan_cap (ready p) = 1 → chan_len (ready p) ≤ 1 →
  chan_cap (ready (after_all cs p)) = 1 ∧
  chan_len (ready (after_all cs p)) ≤ 1.
Proof.
  revert p. induction cs as [|c cs IH]; intros p Hcap Hlen; [done|].
  simpl. destruct (after_ready c p Hcap Hlen). by apply IH.
Qed.

Lemma select_send_default_full ch :
  chan_cap ch = 1 → chan_len ch ≤ 1 → chan_len (select_send_default ch) = 1.
Proof.
  intros Hcap Hlen. unfold select_send_default. rewrite Hcap.
  destruct (decide _); simpl; lia.
Qed.

Lemma select_send_default_mono ch :
  chan_len ch ≤ chan_len (select_send_default ch).
Proof. unfold select_send_default. destruct (decide _); simpl; lia. Qed.

(** X3: on a behaviour made by [NewPooledQueryBehaviour], after any calls:
    a call of [Notify] or of [Perform] that returns and leaves events in
    the queue leaves a token in [ready], so that a driver waiting on
    [Ready()] is woken up; and neither method ever takes a token out. *)
Theorem X3_no_lost_wakeup (pl : Pool) (calls : list Call) :
  let p := after_all calls (NewPooledQueryBehaviour pl) in
  (∀ ev, (Notify ev p).1 = Returned () → pending (Notify ev p).2 ≠ [] →
     chan_len (ready (Notify ev p).2) = 1) ∧
  (∀ fuel r, (Perform fuel p).1 = Returned (Some r) →
     pending (Perform fuel p).2 ≠ [] →
     chan_len (ready (Perform fuel p).2) = 1) ∧
  (∀ ev, chan_len (ready p) ≤ chan_len (ready (Notify ev p).2)) ∧
  (∀ fuel, chan_len (ready p) ≤ chan_len (ready (Perform fuel p).2)).
Proof.
  intros p.
  assert (pendingMu p = false) as Hmu by by apply after_all_unlocked.
  destruct (after_all_ready calls (NewPooledQueryBehaviour pl))
    as [Hcap Hlen]; [done|simpl; lia|]. fold p in Hcap, Hlen.
  pose proof (select_send_default_full _ Hcap Hlen) as Hfull.
  pose proof (select_send_default_mono (ready p)) as Hmono.
  split_and!.
  - intros ev. destruct (Notify_cases ev p Hmu) as [[_ ->]|(cmd & _ & ->)];
      [done|]. simpl.
    destruct (state_outcome _); [|done..]. intros _ Hq.
    destruct (decide _) as [|Hempty]; [done|].
    destruct Hq. apply length_zero_iff_nil. lia.
  - intros fuel r. destruct (Perform_cases fuel p Hmu)
      as [[_ ->]|[(_ & ev & rest & _ & ->)|(_ & Hq & ->)]]; [done| |].
    + simpl. intros _ Hrest. destruct (decide _) as [|Hempty]; [done|].
      destruct Hrest. apply length_zero_iff_nil. lia.
    + simpl. by rewrite Hq.
  - intros ev. destruct (Notify_cases ev p Hmu) as [[_ ->]|(cmd & _ & ->)];
      [done|]. simpl.
    destruct (state_outcome _); [|done..]. by destruct (decide _).
  - intros fuel. destruct (Perform_cases fuel p Hmu)
      as [[_ ->]|[(_ & ev & rest & _ & ->)|(_ & _ & ->)]]; [done| |done].
    simpl. by destruct (decide _).
Qed.

Lemma state_outcome_emitted st :
  Forall (λ ev, is_emitted ev = true) (outcome_events (state_outcome st)).
Proof.
  destruct st as [q [| |] proto msg| | | | | |]; simpl; try done.
  by repeat constructor.
Qed.

Lemma queued_by_one_emitted ev p :
  Forall (λ ev, is_emitted ev = true) (queued_by_one ev p).
Proof.
  unfold queued_by_one. destruct (table_pool_event ev); [|done].
  apply Forall_app. split; [|apply state_outcome_emitted].
  destruct ev; simpl; try done. by apply Forall_fmap, Forall_true.
Qed.

Lemma after_emitted c p :
  pendingMu p = false →
  Forall (λ ev, is_emitted ev = true) (pending p) →
  Forall (λ ev, is_emitted ev = true) (pending (after c p)).
Proof.
  intros Hmu Hq. destruct c as [ev|fuel|]; simpl; [| |done].
  - rewrite Notify_pending by done. apply Forall_app.
    split; [done|apply queued_by_one_emitted].
  - destruct (Perform_cases fuel p Hmu)
      as [[_ ->]|[(_ & ev & rest & Hrest & ->)|(_ & _ & ->)]]; [done| |done].
    simpl. rewrite Hrest in Hq. by apply Forall_cons in Hq as [_ ?].
Qed.

(** X5: on a behaviour made by [NewPooledQueryBehaviour], after any calls,
    the queue holds only nodes to add to the address book and requests
    addressed to a peer, without addresses, to be answered to the
    behaviour itself. [Perform] returns such an event together with
    [true], and the nil event together with [false]. *)
Theorem X5_only_requests_and_found_nodes (pl : Pool) (calls : list Call) :
  let p := after_all calls (NewPooledQueryBehaviour pl) in
  Forall (λ ev, is_emitted ev = true) (pending p) ∧
  ∀ fuel ev (ok : bool), (Perform fuel p).1 = Returned (Some (ev, ok)) →
    if ok then is_emitted ev = true else ev = Event_nil.
Proof.
  intros p.
  assert (pendingMu p = false) as Hmu by by apply after_all_unlocked.
  assert (Forall (λ ev, is_emitted ev = true) (pending p)) as Hq.
  { subst p. unfold after_all.
    assert (pendingMu (NewPooledQueryBehaviour pl) = false) as Hmu0 by done.
    assert (Forall (λ ev, is_emitted ev = true)
              (pending (NewPooledQueryBehaviour pl))) as Hq0 by constructor.
    clear Hmu. revert Hmu0 Hq0. generalize (NewPooledQueryBehaviour pl).
    induction calls as [|c calls IH]; intros p Hmu0 Hq0; [done|].
    simpl. apply IH; [by apply after_unlocked|by apply after_emitted]. }
  split; [done|]. intros fuel ev ok.
  destruct (Perform_cases fuel p Hmu)
    as [[_ ->]|[(_ & ev' & rest & Hrest & ->)|(_ & _ & ->)]]; [done| |].
  - simpl. intros [= <- <-]. rewrite Hrest in Hq.
    by apply Forall_cons in Hq as [? _].
  - simpl.
    destruct (Advance (pool p) EventPoolPoll).2 as [? [| |] ? ?| | | | | |];
      simpl; intros; by simplify_eq.
Qed.

Lemma in_blocks_app (a b : list WaiterCall) :
  in_blocks a = true → in_blocks b = true → in_blocks (a ++ b) = true.
Proof.
  remember (length a) as n eqn:Hn. revert a Hn.
  induction n as [n IH] using lt_wf_ind. intros a Hn Ha Hb.
  destruct a as [|[w e|w] a]; simpl in *; [done| |done].
  destruct e; try done.
  - apply (IH (length a)); [lia|done..].
  - destruct a as [|[w' e'|w'] a]; simpl in *; try done.
    apply andb_true_iff in Ha as [Hw Ha]. rewrite Hw. simpl.
    apply (IH (length a)); [lia|done..].
Qed.

Lemma state_calls_in_blocks st (ws : gmap QueryID Waiter) :
  in_blocks (state_calls st ws) = true.
Proof.
  destruct st as [| | |q stats| | |]; simpl; try done.
  destruct (ws !! q); simpl; [|done]. by rewrite bool_decide_eq_true_2.
Qed.

Lemma table_notified_in_blocks ev (ws : gmap QueryID Waiter) :
  in_blocks (table_notified ev ws) = true.
Proof.
  destruct ev as [| | |q to target closer| | | | | |]; simpl; try done.
  by destruct (ws !! q).
Qed.

(** What a call adds to the calls made on waiters. *)
Lemma after_delivered c p :
  pendingMu p = false →
  delivered (after c p) = delivered p ∨
  (∃ ev st, c = DoNotify ev ∧
     delivered (after c p) =
     delivered p ++ table_notified ev (waiters p)
       ++ state_calls st (waiters (after c p))) ∨
  (∃ st, delivered (after c p) =
     delivered p ++ state_calls st (waiters (after c p))).
Proof.
  intros Hmu. destruct c as [ev|fuel|]; simpl; [| |by left].
  - destruct (Notify_cases ev p Hmu) as [[_ ->]|(cmd & _ & ->)]; [by left|].
    right. left. by eexists _, _.
  - destruct (Perform_cases fuel p Hmu)
      as [[_ ->]|[(_ & ev & rest & _ & ->)|(_ & _ & ->)]]; [by left..|].
    right. right. by eexists.
Qed.

(** X6: on a behaviour made by [NewPooledQueryBehaviour], after any calls
    and whatever the pool answered, the calls made on waiters are progress
    notifications and finish notifications, and nothing else; every finish
    notification is followed at once by [Close] on the same waiter, and
    [Close] is called nowhere else. *)
Theorem X6_close_follows_finish (pl : Pool) (calls : list Call) :
  in_blocks (delivered (after_all calls (NewPooledQueryBehaviour pl))) = true.
Proof.
  unfold after_all.
  assert (pendingMu (NewPooledQueryBehaviour pl) = false) as Hmu by done.
  assert (in_blocks (delivered (NewPooledQueryBehaviour pl)) = true) as Hd
    by done.
  revert Hmu Hd. generalize (NewPooledQueryBehaviour pl).
  induction calls as [|c calls IH]; intros p Hmu Hd; [done|].
  simpl. apply IH; [by apply after_unlocked|].
  destruct (after_delivered c p Hmu)
    as [->|[(ev & st & _ & ->)|(st & ->)]]; [done| |].
  - apply in_blocks_app; [done|].
    apply in_blocks_app;
      [apply table_notified_in_blocks|apply state_calls_in_blocks].
  - apply in_blocks_app; [done|apply state_calls_in_blocks].
Qed.

Lemma called_as_supplied_after cs c p :
  pendingMu p = false →
  called_as_supplied cs p →
  called_as_supplied (cs ++ [c]) (after c p).
Proof.
  intros Hmu (Hws & Hn & Hc).
  assert (∀ q w, Exists (λ c, supplies q w c = true) cs →
            Exists (λ c, supplies q w c = true) (cs ++ [c])) as Hmore.
  { intros q w Hex. apply Exists_app. by left. }
  assert (∀ q w, waiters (after c p) !! q = Some w →
            Exists (λ c, supplies q w c = true) (cs ++ [c])) as Hws'.
  { intros q w. destruct c as [ev|fuel|]; simpl.
    - destruct (Notify_cases ev p Hmu) as [[_ ->]|(cmd & _ & ->)];
        [by auto|]. simpl.
      destruct ev as [|q' ? ? ? ? [w'|]| | | | | | | |]; simpl; auto.
      destruct (decide (q' = q)) as [->|Hne].
      + rewrite lookup_insert_eq. intros [= ->].
        apply Exists_app. right. apply Exists_cons_hd. simpl.
        by rewrite !bool_decide_eq_true_2.
      + rewrite lookup_insert_ne by done. auto.
    - destruct (Perform_cases fuel p Hmu)
        as [[_ ->]|[(_ & ev & rest & _ & ->)|(_ & _ & ->)]]; simpl; auto.
    - auto. }
  assert (∀ st call, call ∈ state_calls st (waiters (after c p)) →
            ∃ q w, Exists (λ c, supplies q w c = true) (cs ++ [c]) ∧
              (call = CallClose w ∨
               ∃ ev, call = CallNotify w ev ∧ notification_query ev = Some q))
    as Hstate.
  { intros st call. destruct st as [| | |q stats| | |]; simpl;
      try by intros ?%elem_of_nil.
    destruct (waiters (after c p) !! q) as [w|] eqn:Hq;
      [|by intros ?%elem_of_nil].
    intros Hcall. exists q, w. split; [by apply Hws'|].
    apply elem_of_cons in Hcall as [->|Hcall]; [right; by eexists|].
    apply list_elem_of_singleton in Hcall as ->. by left. }
  assert (∀ ev call, call ∈ table_notified ev (waiters p) →
            ∃ q w e, call = CallNotify w e ∧ notification_query e = Some q ∧
              Exists (λ c, supplies q w c = true) (cs ++ [c])) as Htable.
  { intros ev call. destruct ev as [| | |q to target closer| | | | | |]; simpl;
      try by intros ?%elem_of_nil.
    destruct (waiters p !! q) as [w|] eqn:Hq; [|by intros ?%elem_of_nil].
    intros ->%list_elem_of_singleton. eexists q, w, _.
    split_and!; [done..|]. by apply Hmore, Hws. }
  split_and!; [done| |].
  - intros w e.
    destruct (after_delivered c p Hmu)
      as [->|[(ev & st & _ & ->)|(st & ->)]].
    + intros (q & ? & ?)%Hn. eauto.
    + rewrite !elem_of_app. intros [Hin|[Hin|Hin]].
      * apply Hn in Hin as (q & ? & ?). eauto.
      * apply Htable in Hin as (q & w' & e' & [= <- <-] & ? & ?). eauto.
      * apply Hstate in Hin as (q & w' & ? & [?|(e' & [= <- <-] & ?)]);
          [done|eauto].
    + rewrite elem_of_app. intros [Hin|Hin].
      * apply Hn in Hin as (q & ? & ?). eauto.
      * apply Hstate in Hin as (q & w' & ? & [?|(e' & [= <- <-] & ?)]);
          [done|eauto].
  - intros w.
    destruct (after_delivered c p Hmu)
      as [->|[(ev & st & _ & ->)|(st & ->)]].
    + intros [q ?]%Hc. eauto.
    + rewrite !elem_of_app. intros [Hin|[Hin|Hin]].
      * apply Hc in Hin as [q ?]. eauto.
      * by apply Htable in Hin as (q & w' & e' & ? & _).
      * apply Hstate in Hin as (q & w' & ? & [[= <-]|(e' & ? & _)]);
          [eauto|done].
    + rewrite elem_of_app. intros [Hin|Hin].
      * apply Hc in Hin as [q ?]. eauto.
      * apply Hstate in Hin as (q & w' & ? & [[= <-]|(e' & ? & _)]);
          [eauto|done].
Qed.

(** X7: on a behaviour made by [NewPooledQueryBehaviour], after any calls
    and whatever the pool answered, a waiter is registered for a query,
    notified about a query or closed only if one of the calls started
    that query with that waiter as its notification target. *)
Theorem X7_only_supplied_waiters_are_called (pl : Pool) (calls : list Call) :
  called_as_supplied calls (after_all calls (NewPooledQueryBehaviour pl)).
Proof.
  induction calls as [|c calls IH] using rev_ind.
  - split_and!; simpl.
    + intros q w. by rewrite lookup_empty.
    + by intros w ev ?%elem_of_nil.
    + by intros w ?%elem_of_nil.
  - rewrite after_all_snoc. apply called_as_supplied_after; [|done].
    by apply after_all_unlocked.
Qed.

Lemma after_waiters c p :
  pendingMu p = false →
  waiters (after c p) =
  match c with
  | DoNotify (EventStartQuery q _ _ _ _ (Some w)) => <[q := w]> (waiters p)
  | _ => waiters p
  end.
Proof.
  intros Hmu. destruct c as [ev|fuel|]; simpl; [| |done].
  - destruct (Notify_cases ev p Hmu) as [[Hno ->]|(cmd & _ & ->)].
    + by destruct ev.
    + simpl. by destruct ev as [|? ? ? ? ? [|]| | | | | | | |].
  - by destruct (Perform_cases fuel p Hmu)
      as [[_ ->]|[(_ & ev & rest & _ & ->)|(_ & _ & ->)]].
Qed.

(** X8: the waiter registry of a behaviour made by
    [NewPooledQueryBehaviour] is, after any calls and whatever the pool
    answered, exactly what the starts of queries with a notification
    target wrote into it, a later one over an earlier one for the same
    query. A start without a target, the end of a query, a timeout and a
    stop leave it as it is; in particular an entry, once there, stays
    over all further calls. *)
Theorem X8_registry_is_what_was_registered (pl : Pool) (calls : list Call) :
  waiters (after_all calls (NewPooledQueryBehaviour pl)) = registrations calls ∧
  ∀ (more : list Call) (q : QueryID),
    is_Some (registrations calls !! q) →
    is_Some (registrations (calls ++ more) !! q).
Proof.
  assert (∀ cs, waiters (after_all cs (NewPooledQueryBehaviour pl)) =
                registrations cs) as Heq.
  { intros cs. induction cs as [|c cs IH] using rev_ind; [done|].
    rewrite after_all_snoc, after_waiters by by apply after_all_unlocked.
    unfold registrations. rewrite foldl_app. simpl.
    fold (registrations cs). by rewrite IH. }
  split; [done|]. intros more q. rewrite <-!Heq.
  unfold after_all. rewrite foldl_app. apply after_all_registered.
Qed.

Lemma advanced_with_app evs1 evs2 (pl : Pool) :
  advanced_with (evs1 ++ evs2) pl = advanced_with evs2 (advanced_with evs1 pl).
Proof. unfold advanced_with. by rewrite foldl_app. Qed.

Lemma after_pool c p :
  pendingMu p = false →
  pool (after c p) = advanced_with (fed_by c p) (pool p).
Proof.
  intros Hmu. destruct c as [ev|fuel|]; simpl; [| |done].
  - destruct (Notify_cases ev p Hmu) as [[Hno ->]|(cmd & -> & ->)]; [|done].
    by destruct ev.
  - destruct (Perform_cases fuel p Hmu)
      as [[-> ->]|[(_ & ev & rest & Hq & ->)|(Hfuel & Hq & ->)]]; simpl.
    + done.
    + rewrite Hq. by destruct fuel.
    + rewrite Hq. by destruct fuel.
Qed.

(** X9: the pool of a behaviour made by [NewPooledQueryBehaviour] is
    advanced once for every call of [Notify] with an event it accepts,
    with the translation of that event, and once, with a poll, for every
    call of [Perform] that finds the queue empty, in the order of the
    calls. It is not advanced by a call of [Perform] that finds an event
    pending, nor by a call of [Notify] with an event it rejects. *)
Theorem X9_pool_advanced_once_per_call (pl : Pool) (calls : list Call) :
  pool (after_all calls (NewPooledQueryBehaviour pl)) =
  advanced_with (fed calls (NewPooledQueryBehaviour pl)) pl.
Proof.
  change pl with (pool (NewPooledQueryBehaviour pl)) at 3.
  assert (pendingMu (NewPooledQueryBehaviour pl) = false) as Hmu by done.
  revert Hmu. generalize (NewPooledQueryBehaviour pl).
  induction calls as [|c calls IH]; intros p Hmu; [done|].
  simpl. rewrite advanced_with_app, <-after_pool by done.
  apply IH. by apply after_unlocked.
Qed.



End MoreBehaviourFacts.

(** * The properties at concrete inputs *)

Section Witnesses.
Import Scripted.

(** C1, at a run the code can make: the query [Q1] is started with the
    waiter [7], two requests go out, the caller stops the query and the
    pool reports it finished, and then the answer of [N1] comes in. The
    waiter is told of the end of the query and closed, its registration
    stays in the registry, and it is then notified of progress. *)
Theorem C1_progress_after_finish :
  let p := after_all
      [DoNotify (start_Q1 (Some 7)); DoPerform 1; DoPerform 1;
       DoNotify stop_Q1; DoNotify success_N1]
      (playing [message_to "N1"; message_to "N2";
                StatePoolQueryFinished "Q1" 2; StatePoolIdle]) in
  delivered p =
    [CallNotify 7 finished_Q1; CallClose 7; CallNotify 7 progressed_N1] ∧
  notifications_of 7 (delivered p) = [finished_Q1; progressed_N1] ∧
  progress_then_finish (notifications_of 7 (delivered p)) = false ∧
  waiters p !! "Q1" = Some 7.
Proof. by vm_compute. Qed.

(** C4, at a run the code can make: the query [Q1] is started with the
    waiter [7], a request goes out, and the pool reports that the query
    timed out. The call returns, the waiter has not been called and its
    registration is still there, and no later calls remove it. *)
Theorem C4_timeout_keeps_registration :
  let p := after_all [DoNotify (start_Q1 (Some 7)); DoPerform 1; DoPerform 1]
      (playing [message_to "N1"; StatePoolQueryTimeout "Q1"]) in
  (Perform 1 (after_all [DoNotify (start_Q1 (Some 7)); DoPerform 1]
      (playing [message_to "N1"; StatePoolQueryTimeout "Q1"]))).1 =
    Returned (Some (Event_nil, false)) ∧
  delivered p = [] ∧
  waiters p !! "Q1" = Some 7 ∧
  ∀ calls, is_Some (waiters (after_all calls p) !! "Q1").
Proof.
  split_and!; [by vm_compute..|].
  intros calls. apply after_all_registered. exists 7. by vm_compute.
Qed.

(** C6 at concrete values: an identity of a foreign type, a node info
    carrying the nil identity, and a slice whose second element has a
    foreign identity. *)
Lemma C6_conversions_fail_loudly_witness :
  NodeIDToPeerID (NodeID_other "kadtest.ID") =
    Panic (InterfaceConversion (NodeID_other "kadtest.ID")) ∧
  NodeInfoToAddrInfo
      (mkNodeInfo NodeID_nil ["/ip4/1.2.3.4"]) =
    Panic (InterfaceConversion NodeID_nil) ∧
  ∃ bad, SliceOfNodeInfoToSliceOfAddrInfo
      [mkNodeInfo (NodeID_PeerID "a") []; mkNodeInfo (NodeID_other "x") []] =
    Panic (InterfaceConversion (NodeInfo_ID bad)).
Proof.
  destruct (@C6_conversions_fail_loudly externals)
    as (Hid & Hinfo & Hslice & _).
  split; [apply (Hid (NodeID_other "kadtest.ID")); reflexivity|].
  split; [apply (Hinfo (@mkNodeInfo externals NodeID_nil ["/ip4/1.2.3.4"]));
          reflexivity|].
  destruct (Hslice [@mkNodeInfo externals (NodeID_PeerID "a") [];
                    mkNodeInfo (NodeID_other "x") []]
              (mkNodeInfo (NodeID_other "x") [])) as (bad & _ & _ & Hbad).
  - right. left.
  - reflexivity.
  - exists bad. exact Hbad.
Defined.

(** C8 at an event [Notify] produces itself and at a pool state of a
    type [advancePool] does not know. *)
Lemma C8_unknown_variants_panic_witness :
  Notify add_N3 (playing []) =
    (Panicked (PanicMessage "unexpected dht event: *coord.EventAddAddrInfo"),
     playing []) ∧
  (advancePool EventPoolPoll (playing [StatePool_other "*query.StatePoolNew"])).1 =
    Panicked (PanicMessage "unexpected pool state: *query.StatePoolNew") ∧
  ∃ t, (Notify stop_Q1 (playing [StatePool_other "<nil>"])).1 =
    Panicked (PanicMessage ("unexpected pool state: " +:+ t)).
Proof.
  destruct (@C8_unknown_variants_panic externals collaborators)
    as (Hev & Hst & Hnotify & _).
  split_and!.
  - apply (Hev add_N3 (playing [])); reflexivity.
  - destruct (Hst EventPoolPoll
                (playing [StatePool_other "*query.StatePoolNew"]))
      as (t & Ht & Hpanic); [reflexivity|].
    injection Ht as <-. exact Hpanic.
  - apply (Hnotify stop_Q1 (EventPoolStopQuery "Q1")
             (playing [StatePool_other "<nil>"])); reflexivity.
Defined.

(** C3 at the answer of [N1] and at its failure, for a query whose waiter
    is registered: the answer is translated to a message response, queues
    the node found and notifies the waiter; the failure is translated to
    a message failure and does nothing else. *)
Lemma C3_translation_table_witness :
  let p := after (DoNotify (start_Q1 (Some 7))) (playing [message_to "N1"]) in
  let p1 := (Notify success_N1 p).2 in
  let p2 := (Notify failure_N1 p).2 in
  pendingMu p = false ∧ is_inbound success_N1 = true ∧
  is_inbound failure_N1 = true ∧
  received (pool p1) =
    received (pool p) ++
    [EventPoolMessageResponse (NodeID_PeerID "N1") "Q1"
       ("T", [("N3", ["/ip4/10.0.0.3/tcp/4001"])])] ∧
  waiters p1 = waiters p ∧
  pending p1 = pending p ++ [add_N3] ∧
  delivered p1 = [CallNotify 7 progressed_N1] ∧
  received (pool p2) =
    received (pool p) ++
    [EventPoolMessageFailure (NodeID_PeerID "N1") "Q1" "dial backoff"] ∧
  waiters p2 = waiters p ∧
  pending p2 = pending p ∧
  delivered p2 = [].
Proof.
  intros p p1 p2.
  destruct (C3_translation_table success_N1 p)
    as (cmd1 & Hcmd1 & Hpool1 & Hws1 & Hq1 & Hd1); [reflexivity..|].
  destruct (C3_translation_table failure_N1 p)
    as (cmd2 & Hcmd2 & Hpool2 & Hws2 & Hq2 & Hd2); [reflexivity..|].
  injection Hcmd1 as <-. injection Hcmd2 as <-.
  fold p1 in Hpool1, Hws1, Hq1, Hd1. fold p2 in Hpool2, Hws2, Hq2, Hd2.
  split_and!; [reflexivity..| | | | | | | |].
  - rewrite Hpool1. reflexivity.
  - rewrite Hws1. reflexivity.
  - rewrite Hq1. reflexivity.
  - rewrite Hd1, Hws1. reflexivity.
  - rewrite Hpool2. reflexivity.
  - rewrite Hws2. reflexivity.
  - rewrite Hq2. reflexivity.
  - rewrite Hd2, Hws2. reflexivity.
Defined.

(** C2 at the start of [Q1] followed by the answer of [N1]: the three
    events the two calls queue come out in the order they went in, also
    when calls of [Perform] come in between. *)
Lemma C2_Perform_drains_in_order_witness :
  let p := playing [message_to "N1"; message_to "N2"] in
  let p' := after_all (DoNotify <$> [start_Q1 (Some 7); success_N1]) p in
  let mixed := [DoNotify (start_Q1 (Some 7)); DoPerform 1;
                DoNotify success_N1; DoPerform 1; DoPerform 1; DoPerform 1] in
  pendingMu p = false ∧
  (drain 3 p').1 = [outbound_to "N1"; add_N3; outbound_to "N2"] ∧
  returned mixed p ++ pending (after_all mixed p) =
    [outbound_to "N1"; add_N3; outbound_to "N2"] ∧
  (Perform 1 p').1 = Returned (Some (outbound_to "N1", true)) ∧
  (Perform 1 p).1 = Returned (Some (outbound_to "N1", true)) ∧
  (Perform 1 (playing [StatePoolWaitingWithCapacity])).1 =
    Returned (Some (Event_nil, false)).
Proof.
  intros p p' mixed.
  destruct (@C2_Perform_drains_in_order externals collaborators)
    as (Hhead & Hpoll & _ & Hall & Hfifo).
  destruct (Hfifo [start_Q1 (Some 7); success_N1] p) as (Hq & Hdrain & _);
    [reflexivity|].
  split_and!.
  - reflexivity.
  - exact Hdrain.
  - etransitivity;
      [exact (Hall (scripted [message_to "N1"; message_to "N2"]) mixed)|].
    reflexivity.
  - apply (Hhead 0 (outbound_to "N1") [add_N3; outbound_to "N2"] p');
      reflexivity.
  - destruct (Hpoll 0 p) as (_ & Hmsg & _); [reflexivity..|].
    apply (Hmsg "Q1" "N1" "/ipfs/kad/1.0.0" "T"). reflexivity.
  - destruct (Hpoll 0 (playing [StatePoolWaitingWithCapacity]))
      as (_ & _ & Hnone & _); [reflexivity..|].
    apply Hnone. reflexivity.
Defined.

(** C5 at the start of [Q1]: the call queues a request and fills the
    empty slot; a second signal on the full slot changes nothing. *)
Lemma C5_ready_signal_witness :
  let p := playing [message_to "N1"] in
  pendingMu p = false ∧
  (Notify (start_Q1 None) p).1 = Returned () ∧
  ready (Notify (start_Q1 None) p).2 = {| chan_cap := 1; chan_len := 1 |} ∧
  select_send_default {| chan_cap := 1; chan_len := 1 |} =
    {| chan_cap := 1; chan_len := 1 |} ∧
  (Perform 1 p).1 ≠ Blocked.
Proof.
  intros p.
  destruct (@C5_ready_signal externals collaborators)
    as (Hnotify & _ & _ & Hsend & _ & Hperform & _).
  split_and!.
  - reflexivity.
  - reflexivity.
  - rewrite (Hnotify (start_Q1 None) p); reflexivity.
  - apply (Hsend {| chan_cap := 1; chan_len := 1 |}); reflexivity.
  - apply (Hperform 1 p). reflexivity.
Defined.

(** C7 at a run of [Q1] started without a waiter, which the pool reports
    finished after the answer of [N1]. *)
Lemma C7_fire_and_forget_witness :
  let calls := [DoNotify (start_Q1 None); DoPerform 1; DoNotify success_N1;
                DoPerform 1; DoPerform 1] in
  let p := after_all calls (playing one_round) in
  Forall (λ c, supplies_target "Q1" c = false) calls ∧
  waiters p !! "Q1" = None ∧
  Forall (λ c, notifies_about "Q1" c = false) (delivered p).
Proof.
  intros calls p.
  assert (Forall (λ c, supplies_target "Q1" c = false) calls) as Hcalls
    by (repeat constructor).
  split; [exact Hcalls|].
  apply (@C7_fire_and_forget externals collaborators "Q1"
           (scripted one_round) calls Hcalls).
Defined.

End Witnesses.

Section MoreWitnesses.
Import Scripted.

(** X3 after the start of [Q1]: the answer of [N1] leaves the node found
    and the next request in the queue and a token in [ready]; the call of
    [Perform] that takes the first of three events leaves the token
    there. *)
Lemma X3_no_lost_wakeup_witness :
  let calls := [DoNotify (start_Q1 None); DoReceiveReady; DoPerform 1] in
  let p := after_all calls (playing [message_to "N1"; message_to "N2"]) in
  let p' := (Notify success_N1 p).2 in
  (Notify success_N1 p).1 = Returned () ∧ pending p' ≠ [] ∧
  chan_len (ready p) = 0 ∧ chan_len (ready p') = 1 ∧
  (Perform 1 p').1 = Returned (Some (add_N3, true)) ∧
  pending (Perform 1 p').2 ≠ [] ∧ chan_len (ready (Perform 1 p').2) = 1.
Proof.
  intros calls p p'.
  destruct (@X3_no_lost_wakeup externals collaborators
              (scripted [message_to "N1"; message_to "N2"]) calls)
    as (Hnotify & _).
  destruct (@X3_no_lost_wakeup externals collaborators
              (scripted [message_to "N1"; message_to "N2"])
              (calls ++ [DoNotify success_N1]))
    as (_ & Hperform & _).
  split_and!; [reflexivity|by vm_compute|reflexivity| |reflexivity|
               by vm_compute|].
  - apply (Hnotify success_N1); [reflexivity|by vm_compute].
  - apply (Hperform 1 (add_N3, true)); [reflexivity|by vm_compute].
Defined.

(** X4 at a pool that names a node of a foreign type, in answer to the
    stop of [Q1] and in answer to a poll. *)
Lemma X4_conversion_panic_aborts_the_call_witness :
  let p := playing [message_to_foreign_node] in
  pendingMu p = false ∧
  NodeIDToAddrInfo foreign_node = Panic (InterfaceConversion foreign_node) ∧
  (Notify stop_Q1 p).1 = Panicked (InterfaceConversion foreign_node) ∧
  pendingMu (Notify stop_Q1 p).2 = false ∧
  (Perform 1 p).1 = Panicked (InterfaceConversion foreign_node).
Proof.
  intros p.
  destruct (@X4_conversion_panic_aborts_the_call externals collaborators
              "Q1" foreign_node "/ipfs/kad/1.0.0" "T"
              (InterfaceConversion foreign_node) (EventPoolStopQuery "Q1") p)
    as (_ & Hnotify & _); [reflexivity..|].
  destruct (@X4_conversion_panic_aborts_the_call externals collaborators
              "Q1" foreign_node "/ipfs/kad/1.0.0" "T"
              (InterfaceConversion foreign_node) EventPoolPoll p)
    as (_ & _ & Hperform); [reflexivity..|].
  destruct (Hnotify stop_Q1) as (Hout & Hmu & _); [reflexivity|].
  split_and!; [reflexivity|reflexivity|exact Hout|exact Hmu|].
  rewrite (Hperform 0); reflexivity.
Defined.

(** X5 after the start of [Q1] and the answer of [N1]: the first call of
    [Perform] returns the request to [N1]. *)
Lemma X5_only_requests_and_found_nodes_witness :
  let calls := [DoNotify (start_Q1 None); DoNotify success_N1] in
  let p := after_all calls (playing [message_to "N1"; message_to "N2"]) in
  (Perform 1 p).1 = Returned (Some (outbound_to "N1", true)) ∧
  is_emitted (outbound_to "N1") = true ∧
  Forall (λ ev, is_emitted ev = true) (pending p).
Proof.
  intros calls p.
  destruct (@X5_only_requests_and_found_nodes externals collaborators
              (scripted [message_to "N1"; message_to "N2"]) calls)
    as (Hq & Hperform).
  split_and!; [reflexivity| |exact Hq].
  apply (Hperform 1 (outbound_to "N1") true). reflexivity.
Defined.

(** X7 at the progress notification the waiter [7] gets for [Q1]. *)
Lemma X7_only_supplied_waiters_are_called_witness :
  let calls := [DoNotify (start_Q1 (Some 7)); DoNotify success_N1] in
  let p := after_all calls (playing [message_to "N1"]) in
  CallNotify 7 progressed_N1 ∈ delivered p ∧
  ∃ q, notification_query progressed_N1 = Some q ∧
    Exists (λ c, supplies q 7 c = true) calls.
Proof.
  intros calls p.
  destruct (@X7_only_supplied_waiters_are_called externals collaborators
              (scripted [message_to "N1"]) calls) as (_ & Hnotified & _).
  assert (CallNotify 7 progressed_N1 ∈ delivered p) as Hin by by left.
  split; [exact Hin|]. exact (Hnotified 7 progressed_N1 Hin).
Defined.

(** X8 at a run in which [Q1] is started with the waiter [7], reported
    finished, and started again without a waiter: the entry of the first
    start is still there. *)
Lemma X8_registry_is_what_was_registered_witness :
  let calls := [DoNotify (start_Q1 (Some 7)); DoPerform 1; DoNotify success_N1;
                DoPerform 1; DoPerform 1] in
  let again := [DoNotify (start_Q1 None); DoNotify stop_Q1] in
  is_Some (registrations calls !! "Q1") ∧
  waiters (after_all calls (playing one_round)) !! "Q1" = Some 7 ∧
  is_Some (registrations (calls ++ again) !! "Q1").
Proof.
  intros calls again.
  destruct (@X8_registry_is_what_was_registered externals collaborators
              (scripted one_round) calls) as [Heq Hstays].
  assert (is_Some (registrations calls !! "Q1")) as Hthere
    by (exists 7; reflexivity).
  split_and!; [exact Hthere| |exact (Hstays again "Q1" Hthere)].
  etransitivity; [exact (f_equal (λ ws, ws !! "Q1") Heq)|reflexivity].
Defined.


End MoreWitnesses.
